(** * hw6: open-addressing hash table and string hash

    A shallow embedding of [hash.h] (the functor [MyStringHash]) and of
    [ht.h] (the probers [LinearProber] and [DoubleHashProber] and the
    class template [HashTable]), with the properties of the design
    document stated and settled against it.

    Conventions.
    - [size_t], [HASH_INDEX_T] and [unsigned long long] are 64-bit
      unsigned integers: values are [Z] and every arithmetic result is
      reduced by [wrap64].  [int] is a 32-bit signed integer ([wrap_int]).
    - A [std::vector<HashItem*>] is a [list (option HashItem)]: [None] is
      [nullptr], [Some it] a pointer to the heap item [it].  Reading or
      writing an element outside the vector, reading [a[-1]] of a static
      array, and reading an item after [delete] are undefined behaviour in
      C++; the model reports them with a distinct result ([Fault] or
      [None]) instead of inventing a value.
    - A thrown exception is a result of its own ([Throw], [Raise]). *)

From Stdlib Require Import ZArith List Lia Bool String Ascii Znumtheory QArith.
From Stdlib Require Import Sorted Zdivisibility.
From Stdlib Require PrimFloat Uint63.
From stdpp Require Import base list.

Local Open Scope Z_scope.

(** ** Machine integers *)

Definition two64 : Z := 2 ^ 64.

(** Reduction of a mathematical result to [unsigned long long] / [size_t]. *)
Definition wrap64 (z : Z) : Z := z mod two64.

(** Conversion to [int] (two's complement, 32 bits). *)
Definition wrap_int (z : Z) : Z := (z + 2 ^ 31) mod 2 ^ 32 - 2 ^ 31.

(** [Prober::npos = (HASH_INDEX_T)-1]. *)
Definition npos : Z := wrap64 (-1).

(** ** hash.h *)

Module MyStringHash.

(** [HASH_INDEX_T rValues[5]], the coefficients of the debug mode (the
    constructor leaves them in place when [debug] is true). *)
Definition rValues : list Z :=
  [983132572; 1468777056; 552714139; 984953261; 261934300].

(** The value of a [char]: the code of the character.  For codes of 128
    and above the value of a [char] and what [isdigit] and [tolower] make
    of it depend on the implementation; the keys used here are ASCII. *)
Definition char_code (c : ascii) : Z := Z.of_N (N_of_ascii c).

Definition isdigit (c : Z) : bool := (48 <=? c) && (c <=? 57).

Definition tolower (c : Z) : Z :=
  if (65 <=? c) && (c <=? 90) then c + 32 else c.

(** [letterDigitToNumber]: digits go to 26..35, everything else to
    [tolower(letter) - 'a'], converted to [HASH_INDEX_T]. *)
Definition letterDigitToNumber (letter : ascii) : Z :=
  let c := char_code letter in
  if isdigit c then wrap64 (26 + (c - 48))
  else wrap64 (tolower c - 97).

(** [k[i]] for [0 <= i < k.length()]. *)
Definition char_at (k : string) (i : Z) : option ascii :=
  if (0 <=? i) then String.get (Z.to_nat i) k else None.

Definition str_length (k : string) : Z := Z.of_nat (String.length k).

(** The body of the [for] loop of [computeSubstringValue], run [n]
    times with [i] counting down: each round adds the digit at [i]
    (when [i] is a position of [k]) times [base], then multiplies
    [base] by 36. *)
Fixpoint substring_loop (k : string) (n : nat) (i value base : Z) : Z :=
  match n with
  | O => value
  | S n' =>
      let value' :=
        if (0 <=? i) && (i <? str_length k) then
          match char_at k i with
          | Some c => wrap64 (value + wrap64 (letterDigitToNumber c * base))
          | None => value
          end
        else value in
      substring_loop k n' (i - 1) value' (wrap64 (base * 36))
  end.

(** [computeSubstringValue(k, start, end)]: the loop runs for
    [i = end - 1] down to [start], that is [end - start] times. *)
Definition computeSubstringValue (k : string) (start end_ : Z) : Z :=
  substring_loop k (Z.to_nat (end_ - start)) (end_ - 1) 0 1.

(** The [while (index >= 0)] loop of [operator()]: [n] rounds, filling
    [w[index]] from the back and moving [pos] down by 6; the result is
    the array [w] from [w[index+1-n]] to [w[index]]. *)
Fixpoint fill_w (k : string) (n : nat) (pos : Z) (acc : list Z) : list Z :=
  match n with
  | O => acc
  | S n' =>
      fill_w k n' (wrap_int (pos - 6))
             (computeSubstringValue k (wrap_int (pos - 6)) pos :: acc)
  end.

(** [hash += rValues[i] * w[i]] for [i = 0 .. 4]. *)
Fixpoint weighted_sum (rs ws : list Z) (hash : Z) : Z :=
  match rs, ws with
  | r :: rs', w :: ws' => weighted_sum rs' ws' (wrap64 (hash + wrap64 (r * w)))
  | _, _ => hash
  end.

(** [operator()(const std::string& k)]. *)
Definition hash (k : string) : Z :=
  let len := wrap_int (str_length k) in
  let pos := Z.rem len 6 in
  let w := fill_w k 5 pos [] in
  weighted_sum rValues w 0.

(** A key with its capital letters replaced by small ones. *)
Definition lower_char (c : ascii) : ascii :=
  ascii_of_N (Z.to_N (tolower (char_code c))).

Fixpoint lower_key (k : string) : string :=
  match k with
  | EmptyString => EmptyString
  | String c k' => String (lower_char c) (lower_key k')
  end.

(** The number written with the base-36 digits [ds], most significant
    digit first, continuing from [acc]. *)
Fixpoint base36 (acc : Z) (ds : list Z) : Z :=
  match ds with
  | [] => acc
  | d :: ds' => base36 (acc * 36 + d) ds'
  end.

(** The digits of the characters of [k] at the [n] positions from
    [start] on. *)
Fixpoint digits_from (k : string) (start : Z) (n : nat) : list Z :=
  match n with
  | O => []
  | S n' =>
      match char_at k start with
      | Some c => letterDigitToNumber c :: digits_from k (start + 1) n'
      | None => digits_from k (start + 1) n'
      end
  end.

End MyStringHash.

(** ** ht.h: results of operations *)

Inductive exn : Type :=
| logic_error (what : string)
| out_of_range (what : string).

(** What the model reports where C++ gives no result: undefined
    behaviour, or a loop the model cut off. *)
Inductive fault : Type :=
| undefined_behaviour
| out_of_fuel.

Inductive result (A : Type) : Type :=
| Ok (a : A)
| Throw (e : exn)
| Fault (f : fault).
Arguments Ok {A} a.
Arguments Throw {A} e.
Arguments Fault {A} f.

(** [v[i]] and [v[i] = x] on a vector, with a [size_t] index. *)
Definition vec_get {A : Type} (v : list A) (i : Z) : option A :=
  if 0 <=? i then v !! Z.to_nat i else None.

Definition vec_set {A : Type} (v : list A) (i : Z) (x : A) : list A :=
  <[Z.to_nat i := x]> v.

(** ** ht.h: probers *)

(** The data members of [struct Prober]. *)
Record Prober : Type := mkProber {
  start_ : Z;
  m_ : Z;
  numProbes_ : Z
}.

(** [Prober::init]; the key is not used by the base class. *)
Definition Prober_init (start m : Z) : Prober :=
  {| start_ := start; m_ := m; numProbes_ := 0 |}.

(** The interface a prober offers to the table: [init] and [next].  (The
    base class's own [next] only throws; the strategies are the derived
    classes below.)  [init] overwrites every data member it reads later,
    so it is a function to a fresh state; it has no result where the
    C++ has undefined behaviour. *)
Class ProberOps (K P : Type) : Type := {
  prober_init : Z -> Z -> K -> option P;
  prober_next : P -> Z * P
}.

(** The results of [n] successive calls of [next], and the state after
    them. *)
Fixpoint probes {K P : Type} `{ProberOps K P} (n : nat) (p : P) : list Z * P :=
  match n with
  | O => ([], p)
  | S n' =>
      let '(loc, p') := prober_next p in
      let '(locs, p'') := probes n' p' in
      (loc :: locs, p'')
  end.

(** The next [fuel] calls of [next] reach [npos], and every index
    returned before that is an index of a table of capacity [m]. *)
Fixpoint bounded_prober {K P : Type} `{ProberOps K P} (fuel : nat) (m : Z) (p : P)
  : Prop :=
  match fuel with
  | O => False
  | S fuel' =>
      let '(loc, p') := prober_next p in
      loc = npos \/ (0 <= loc < m /\ loc <> npos /\ bounded_prober fuel' m p')
  end.

Module LinearProber.

Definition init {K : Type} (start m : Z) (key : K) : Prober :=
  Prober_init start m.

Definition next (p : Prober) : Z * Prober :=
  if m_ p <=? numProbes_ p then (npos, p)
  else
    let loc := wrap64 (start_ p + numProbes_ p) mod m_ p in
    (loc, {| start_ := start_ p; m_ := m_ p;
             numProbes_ := wrap64 (numProbes_ p + 1) |}).

#[global] Instance ops (K : Type) : ProberOps K Prober :=
  {| prober_init := fun start m key => Some (init start m key);
     prober_next := next |}.

End LinearProber.

Module DoubleHashProber.

Definition DOUBLE_HASH_MOD_VALUES : list Z :=
  [7; 19; 43; 89; 193; 389; 787; 1583; 3191; 6397; 12841; 25703; 51431;
   102871; 205721; 411503; 823051; 1646221; 3292463; 6584957; 13169963;
   26339921; 52679927; 105359939; 210719881; 421439749; 842879563;
   1685759113].

(** [sizeof(DOUBLE_HASH_MOD_VALUES) / sizeof(HASH_INDEX_T)]. *)
Definition DOUBLE_HASH_MOD_SIZE : Z :=
  Z.of_nat (length DOUBLE_HASH_MOD_VALUES).

(** [DOUBLE_HASH_MOD_VALUES[i]] with an [int] index: no value outside
    the array. *)
Definition mod_value (i : Z) : option Z := vec_get DOUBLE_HASH_MOD_VALUES i.

(** The [for] loop of [findModulusToUseFromTableSize] with [n] rounds
    left at index [i].  The first component lists the indices at which
    the array is read, in order; the second is the value returned, if
    every read was inside the array. *)
Fixpoint modulus_loop (n : nat) (i : Z) (currTableSize : Z)
  : list Z * option Z :=
  match n with
  | O => ([DOUBLE_HASH_MOD_SIZE - 1], mod_value (DOUBLE_HASH_MOD_SIZE - 1))
  | S n' =>
      match mod_value i with
      | Some v =>
          if currTableSize <=? v then ([i; i - 1], mod_value (i - 1))
          else
            let '(reads, r) := modulus_loop n' (i + 1) currTableSize in
            (i :: reads, r)
      | None => ([i], None)
      end
  end.

Definition findModulus_trace (currTableSize : Z) : list Z * option Z :=
  modulus_loop (Z.to_nat DOUBLE_HASH_MOD_SIZE) 0 currTableSize.

Definition findModulus_reads (currTableSize : Z) : list Z :=
  fst (findModulus_trace currTableSize).

Definition findModulusToUseFromTableSize (currTableSize : Z) : option Z :=
  snd (findModulus_trace currTableSize).

(** What is expected of the modulus chosen for table size [m], stated of
    a result of [findModulus_trace]: every read is inside the array, and
    the value is the largest ladder entry strictly below [m]. *)
Definition modulus_ok (m : Z) (tr : list Z * option Z) : Prop :=
  Forall (fun i => 0 <= i < DOUBLE_HASH_MOD_SIZE) (fst tr) /\
  exists modulus,
    snd tr = Some modulus /\
    modulus ∈ DOUBLE_HASH_MOD_VALUES /\
    modulus < m /\
    (forall v, v ∈ DOUBLE_HASH_MOD_VALUES -> v < m -> v <= modulus).

(** The data members of [DoubleHashProber] besides the functor [h2_]. *)
Record state : Type := mkState {
  base : Prober;
  dhstep_ : Z
}.

Section WithHash2.
Context {K : Type}.
(** [h2_]: the value of the secondary hash, a [HASH_INDEX_T]. *)
Variable h2_ : K -> Z.

Definition init (start m : Z) (key : K) : option state :=
  match findModulusToUseFromTableSize m with
  | Some modulus =>
      Some {| base := Prober_init start m;
              dhstep_ := wrap64 (modulus - h2_ key mod modulus) |}
  | None => None
  end.

Definition next (p : state) : Z * state :=
  let b := base p in
  if m_ b <=? numProbes_ b then (npos, p)
  else
    let loc :=
      wrap64 (start_ b + wrap64 (numProbes_ b * dhstep_ p)) mod m_ b in
    (loc, {| base := {| start_ := start_ b; m_ := m_ b;
                        numProbes_ := wrap64 (numProbes_ b + 1) |};
             dhstep_ := dhstep_ p |}).

Definition ops : ProberOps K state :=
  {| prober_init := init; prober_next := next |}.
End WithHash2.

End DoubleHashProber.

(** ** ht.h: the table *)

Module HashTable.

Definition CAPACITIES : list Z :=
  [11; 23; 47; 97; 197; 397; 797; 1597; 3203; 6421; 12853; 25717; 51437;
   102877; 205759; 411527; 823117; 1646237; 3292489; 6584983; 13169977;
   26339969; 52679969; 105359969; 210719881; 421439783; 842879579;
   1685759167].

(** [sizeof(CAPACITIES) / sizeof(HASH_INDEX_T)]. *)
Definition CAPACITIES_SIZE : Z := Z.of_nat (length CAPACITIES).

(** [CAPACITIES[i]].  The table only reads it at [mIndex_], which stays
    inside the array (lemma [run_inv] below); outside it the model gives
    0. *)
Definition capacity_at (i : Z) : Z := nth (Z.to_nat i) CAPACITIES 0.

(** The test [n / static_cast<double>(c) >= 0.4] of [insert].  The
    quotient of the two integers is compared exactly: for the counts and
    capacities of a table ([n <= c < 2^50]) the rounded quotient and the
    rounded constant compare as the exact ones do, because [n / c] is
    either equal to [2/5] or at least [1 / (5 c)] away from it.  The test
    in binary64 arithmetic is [DoubleTest.load_reached] below; lemma
    [load_reached_double_boundaries] compares the two where the answer
    changes. *)
Definition load_reached (n c : Z) : bool := 2 * c <=? 5 * n.

Section Table.
Context {K V P : Type} `{ProberOps K P}.
(** [hash_(key)], a [HASH_INDEX_T], and [kequal_(k1, k2)]. *)
Variable hash_ : K -> Z.
Variable kequal_ : K -> K -> bool.

Record HashItem : Type := mkHashItem {
  item : K * V;
  deleted : bool
}.

(** [HashItem(const ItemType& newItem)]. *)
Definition new_HashItem (newItem : K * V) : HashItem :=
  {| item := newItem; deleted := false |}.

(** The data members of the table that its operations read.  The
    member [prober_] is initialised afresh by every [probe] and
    [totalProbes_] is never read, so neither is part of the state. *)
Record HashTable : Type := mkHashTable {
  table_ : list (option HashItem);
  mIndex_ : Z
}.

(** What a mutating operation leaves behind: the table after a normal
    return, the table at the point of a [throw], or no table. *)
Inductive outcome : Type :=
| Done (t : HashTable)
| Raise (e : exn) (t : HashTable)
| Broken (f : fault).

(** The constructor; [resizeAlpha] is not stored. *)
Definition new (resizeAlpha : Q) : HashTable :=
  {| table_ := replicate (Z.to_nat (capacity_at 0)) None; mIndex_ := 0 |}.

Definition capacity (t : HashTable) : Z := capacity_at (mIndex_ t).

(** [item && !item->deleted]. *)
Definition live (s : option HashItem) : bool :=
  match s with
  | Some it => negb (deleted it)
  | None => false
  end.

(** [size()]: the count never exceeds the length of the vector, so it
    does not wrap. *)
Definition size (t : HashTable) : Z :=
  fold_left (fun count s => if live s then count + 1 else count)
            (table_ t) 0.

Definition empty (t : HashTable) : bool :=
  forallb (fun s => negb (live s)) (table_ t).

(** The loop of [probe].  [released] is 0 except inside [resize],
    where the items of the deleted slots below that index have
    already been handed to [delete]: reading such an item is
    undefined. *)
Fixpoint probe_loop (released : Z) (tbl : list (option HashItem))
         (key : K) (fuel : nat) (p : P) : result Z :=
  match fuel with
  | O => Fault out_of_fuel
  | S fuel' =>
      let '(loc, p') := prober_next p in
      if loc =? npos then Ok npos
      else
        match vec_get tbl loc with
        | None => Fault undefined_behaviour
        | Some None => Ok loc
        | Some (Some it) =>
            if (loc <? released) && deleted it
            then Fault undefined_behaviour
            else if deleted it || kequal_ (fst (item it)) key then Ok loc
            else probe_loop released tbl key fuel' p'
        end
  end.

(** [probe(key)].  A prober answers [npos] after [m] probes, so
    [m + 1] calls of [next] are enough fuel. *)
Definition probe_from (released : Z) (t : HashTable) (key : K) : result Z :=
  let h := hash_ key mod capacity t in
  match prober_init h (capacity t) key with
  | Some p =>
      probe_loop released (table_ t) key (S (Z.to_nat (capacity t))) p
  | None => Fault undefined_behaviour
  end.

Definition probe (t : HashTable) (key : K) : result Z :=
  probe_from 0 t key.

(** The [for (auto& item : table_)] loop of [resize]: [items] are the
    slots still to visit, the first of them at index [i]; [probe]
    runs on the table as it is, whose members are only replaced
    after the loop. *)
Fixpoint resize_loop (t : HashTable) (i : Z)
         (items newTable : list (option HashItem))
  : result (list (option HashItem)) :=
  match items with
  | [] => Ok newTable
  | s :: rest =>
      match s with
      | Some it =>
          if negb (deleted it) then
            match probe_from i t (fst (item it)) with
            | Ok index =>
                match vec_get newTable index with
                | Some _ =>
                    resize_loop t (i + 1) rest (vec_set newTable index s)
                | None => Fault undefined_behaviour
                end
            | Throw e => Throw e
            | Fault f => Fault f
            end
          else resize_loop t (i + 1) rest newTable
      | None => resize_loop t (i + 1) rest newTable
      end
  end.

Definition resize (t : HashTable) : outcome :=
  let newIdx := wrap64 (mIndex_ t + 1) in
  if CAPACITIES_SIZE <=? newIdx then
    Raise (logic_error "Maximum capacity reached, cannot resize further") t
  else
    let newTable := replicate (Z.to_nat (capacity_at newIdx)) None in
    match resize_loop t 0 (table_ t) newTable with
    | Ok newTable' => Done {| table_ := newTable'; mIndex_ := newIdx |}
    | Throw e => Raise e t
    | Fault f => Broken f
    end.

(** The part of [insert] after the resize check. *)
Definition place (t : HashTable) (p : K * V) : outcome :=
  match probe t (fst p) with
  | Ok index =>
      if index =? npos then Raise (logic_error "No free location found") t
      else
        match vec_get (table_ t) index with
        | Some None =>
            Done {| table_ := vec_set (table_ t) index (Some (new_HashItem p));
                    mIndex_ := mIndex_ t |}
        | Some (Some it) =>
            Done {| table_ :=
                      vec_set (table_ t) index
                        (Some {| item := (fst (item it), snd p);
                                 deleted := false |});
                    mIndex_ := mIndex_ t |}
        | None => Broken undefined_behaviour
        end
  | Throw e => Raise e t
  | Fault f => Broken f
  end.

Definition insert (t : HashTable) (p : K * V) : outcome :=
  if load_reached (size t) (capacity t) then
    match resize t with
    | Done t' => place t' p
    | other => other
    end
  else place t p.

Definition remove (t : HashTable) (key : K) : outcome :=
  match probe t key with
  | Ok index =>
      if negb (index =? npos) then
        match vec_get (table_ t) index with
        | Some (Some it) =>
            Done {| table_ :=
                      vec_set (table_ t) index
                        (Some {| item := item it; deleted := true |});
                    mIndex_ := mIndex_ t |}
        | Some None => Done t
        | None => Broken undefined_behaviour
        end
      else Done t
  | Throw e => Raise e t
  | Fault f => Broken f
  end.

(** [find(key)]: the result is the pair the returned pointer points
    to, [None] for [nullptr]. *)
Definition find (t : HashTable) (key : K) : result (option (K * V)) :=
  match probe t key with
  | Ok index =>
      if index =? npos then Ok None
      else
        match vec_get (table_ t) index with
        | Some None => Ok None
        | Some (Some it) => if deleted it then Ok None else Ok (Some (item it))
        | None => Fault undefined_behaviour
        end
  | Throw e => Throw e
  | Fault f => Fault f
  end.

(** [at(key)] and [operator[]]. *)
Definition at_ (t : HashTable) (key : K) : result V :=
  match find t key with
  | Ok None => Throw (out_of_range "Key not found")
  | Ok (Some it) => Ok (snd it)
  | Throw e => Throw e
  | Fault f => Fault f
  end.

Definition subscript (t : HashTable) (key : K) : result V := at_ t key.

(** *** Sequences of public operations *)

Inductive operation : Type :=
| Insert (p : K * V)
| Remove (key : K)
| Find (key : K)
| At (key : K)
| Resize.

(** The table a caller holds after an operation: the one left by a
    normal return or by a [throw]; none after a fault. *)
Definition table_after (o : outcome) : option HashTable :=
  match o with
  | Done t => Some t
  | Raise _ t => Some t
  | Broken _ => None
  end.

(** [find] and [at] are [const]: they leave the table as it is. *)
Definition apply (t : HashTable) (o : operation) : option HashTable :=
  match o with
  | Insert p => table_after (insert t p)
  | Remove key => table_after (remove t key)
  | Find key =>
      match find t key with
      | Fault _ => None
      | _ => Some t
      end
  | At key =>
      match at_ t key with
      | Fault _ => None
      | _ => Some t
      end
  | Resize => table_after (resize t)
  end.

Fixpoint run (ops : list operation) (t : HashTable) : option HashTable :=
  match ops with
  | [] => Some t
  | o :: ops' =>
      match apply t o with
      | Some t' => run ops' t'
      | None => None
      end
  end.

(** The number of Occupied slots, as a sum over the vector. *)
Fixpoint live_count (tbl : list (option HashItem)) : Z :=
  match tbl with
  | [] => 0
  | s :: rest => (if live s then 1 else 0) + live_count rest
  end.

(** The indices of the Occupied slots whose key is equal to [key]. *)
Fixpoint holders_from (i : Z) (tbl : list (option HashItem)) (key : K)
  : list Z :=
  match tbl with
  | [] => []
  | s :: rest =>
      let here :=
        match s with
        | Some it => negb (deleted it) && kequal_ (fst (item it)) key
        | None => false
        end in
      if here then i :: holders_from (i + 1) rest key
      else holders_from (i + 1) rest key
  end.

Definition holders (t : HashTable) (key : K) : list Z :=
  holders_from 0 (table_ t) key.

(** Whether [insert t p] went through [resize]: the capacity index of
    the table it leaves is not the one it started with. *)
Definition insert_resized (t : HashTable) (p : K * V) : option bool :=
  match table_after (insert t p) with
  | Some t' => Some (negb (mIndex_ t' =? mIndex_ t))
  | None => None
  end.

(** What the design document promises of [find] after a sequence of
    inserts and removes: the value of the last insert of the key, or
    nothing if the key has been removed since (or never inserted).
    [cur] is the answer before [ops]. *)
Fixpoint spec_lookup (ops : list operation) (key : K) (cur : option V)
  : option V :=
  match ops with
  | [] => cur
  | Insert p :: ops' =>
      spec_lookup ops' key (if kequal_ (fst p) key then Some (snd p) else cur)
  | Remove k :: ops' =>
      spec_lookup ops' key (if kequal_ k key then None else cur)
  | _ :: ops' => spec_lookup ops' key cur
  end.

(** The state of a table between public operations: the capacity index
    is inside the ladder, the vector has the length of the current
    capacity, and the Occupied slots exceed two fifths of the capacity by
    less than one entry. *)
Definition table_inv (t : HashTable) : Prop :=
  0 <= mIndex_ t < CAPACITIES_SIZE /\
  length (table_ t) = Z.to_nat (capacity t) /\
  5 * (size t - 1) < 2 * capacity t.

(** *** The rest of the class *)

(** The condition under which the loop of [probe] returns a slot for
    [key]: the slot is null, deleted, or holds an equal key. *)
Definition stops (s : option HashItem) (key : K) : bool :=
  match s with
  | Some it => deleted it || kequal_ (fst (item it)) key
  | None => true
  end.

(** The loop of [reportAll] with [n] rounds left at index [i]: one line
    for each Occupied slot, given by the three values the line prints
    (the index after ["Bucket "], the key and the value).  The vector is
    read at every index below [CAPACITIES[mIndex_]]. *)
Fixpoint reportAll_loop (tbl : list (option HashItem)) (n : nat) (i : Z)
  : result (list (Z * K * V)) :=
  match n with
  | O => Ok []
  | S n' =>
      match vec_get tbl i with
      | Some s =>
          match reportAll_loop tbl n' (i + 1) with
          | Ok lines =>
              match s with
              | Some it =>
                  if negb (deleted it)
                  then Ok ((i, fst (item it), snd (item it)) :: lines)
                  else Ok lines
              | None => Ok lines
              end
          | other => other
          end
      | None => Fault undefined_behaviour
      end
  end.

Definition reportAll (t : HashTable) : result (list (Z * K * V)) :=
  reportAll_loop (table_ t) (Z.to_nat (capacity t)) 0.

(** The Occupied entries of a vector with their indices, the first slot
    at index [i]. *)
Fixpoint occupied_from (i : Z) (tbl : list (option HashItem))
  : list (Z * K * V) :=
  match tbl with
  | [] => []
  | s :: rest =>
      match s with
      | Some it =>
          if negb (deleted it)
          then (i, fst (item it), snd (item it)) :: occupied_from (i + 1) rest
          else occupied_from (i + 1) rest
      | None => occupied_from (i + 1) rest
      end
  end.

(** No slot of the table is a tombstone. *)
Definition no_tombstones (t : HashTable) : bool :=
  forallb (fun s => match s with
                    | Some it => negb (deleted it)
                    | None => true
                    end) (table_ t).

End Table.

(** The default [resizeAlpha] of the constructor. *)
Definition default_alpha : Q := 0.4%Q.

End HashTable.

(** ** The threshold test in double precision *)

Module DoubleTest.

(** [static_cast<double>(n)] for a count or a capacity (below [2^53], so
    the conversion is exact). *)
Definition to_double (n : Z) : PrimFloat.float :=
  PrimFloat.of_uint63 (Uint63.of_Z n).

(** The test of [insert] in binary64 arithmetic.  The constant [0.4] is
    the double nearest to 2/5, which is the rounded quotient of 2 by 5. *)
Definition load_reached (n c : Z) : bool :=
  PrimFloat.leb (PrimFloat.div (to_double 2) (to_double 5))
                (PrimFloat.div (to_double n) (to_double c)).

End DoubleTest.

(** ** A table of strings

    [HashTable<std::string, int, LinearProber<std::string>, MyStringHash>]:
    keys are strings hashed by [MyStringHash] in debug mode and compared
    by [std::equal_to]; the prober is the default one. *)

Module StringTable.
Import HashTable.

Definition table : Type := @HashTable string Z.
Definition op : Type := @operation string Z.

Definition insert (t : table) (p : string * Z) : outcome :=
  insert MyStringHash.hash String.eqb t p.
Definition remove (t : table) (key : string) : outcome :=
  remove MyStringHash.hash String.eqb t key.
Definition find (t : table) (key : string) : result (option (string * Z)) :=
  find MyStringHash.hash String.eqb t key.
Definition at_ (t : table) (key : string) : result Z :=
  at_ MyStringHash.hash String.eqb t key.
Definition resize (t : table) : outcome :=
  resize MyStringHash.hash String.eqb t.
Definition run (ops : list op) (t : table) : option table :=
  run MyStringHash.hash String.eqb ops t.
Definition holders (t : table) (key : string) : list Z :=
  holders String.eqb t key.
Definition spec_lookup (ops : list op) (key : string) : option Z :=
  spec_lookup String.eqb ops key None.
Definition insert_resized (t : table) (p : string * Z) : option bool :=
  insert_resized MyStringHash.hash String.eqb t p.

Definition reportAll (t : table) : result (list (Z * string * Z)) :=
  reportAll t.

(** The table a caller holds after the operations [ops] on a new table
    (the new table itself if one of them faults). *)
Definition after (ops : list op) : table :=
  match run ops (new default_alpha) with
  | Some t => t
  | None => new default_alpha
  end.

(** Tables to try the properties on: after the inserts of ["a"], of
    ["a"] and ["b"], and of ["a"] to ["e"]. *)
Definition table_a : table := after [Insert ("a"%string, 1)].

Definition table_ab : table := after [Insert ("a"%string, 1); Insert ("b"%string, 2)].

Definition table_abcde : table :=
  after [Insert ("a"%string, 1); Insert ("b"%string, 2); Insert ("c"%string, 3); Insert ("d"%string, 4);
         Insert ("e"%string, 5)].

(** The last [n] characters of a key (the whole key if it is shorter). *)
Definition last_chars (n : nat) (k : string) : string :=
  String.substring (String.length k - n) n k.

End StringTable.

(** * Properties *)

Local Open Scope string_scope.
Local Open Scope Z_scope.
Local Open Scope list_scope.

(** * Machine arithmetic *)

Lemma two64_eq : two64 = 18446744073709551616.
Proof. reflexivity. Qed.

Lemma wrap64_small z : 0 <= z < two64 -> wrap64 z = z.
Proof. intros Hz. unfold wrap64. apply Z.mod_small. exact Hz. Qed.

Lemma npos_eq : npos = two64 - 1.
Proof. reflexivity. Qed.

(** Equal residues of two points of an arithmetic progression whose step
    is coprime to the modulus force equal indices. *)
Lemma affine_mod_inj start step m i j :
  0 < m -> Z.gcd step m = 1 ->
  0 <= i < m -> 0 <= j < m ->
  (start + i * step) mod m = (start + j * step) mod m -> i = j.
Proof.
  intros Hm Hg Hi Hj Heq.
  assert (Hdiv : (m | (i - j) * step)).
  { apply Z.mod_divide; [lia|].
    replace ((i - j) * step) with ((start + i * step) - (start + j * step)) by ring.
    rewrite Zminus_mod, Heq, Z.sub_diag. apply Z.mod_0_l. lia. }
  rewrite Z.mul_comm in Hdiv.
  apply Z.gauss in Hdiv; [|rewrite Z.gcd_comm; exact Hg].
  destruct Hdiv as [q Hq].
  assert (q = 0) by nia. lia.
Qed.

(** A duplicate-free list of [m] residues below [m] lists every index once. *)
Lemma residues_permutation (f : Z -> Z) m :
  0 < m ->
  (forall i j, 0 <= i < m -> 0 <= j < m -> f i mod m = f j mod m -> i = j) ->
  (fun i => f i mod m) <$> seqZ 0 m ≡ₚ seqZ 0 m.
Proof.
  intros Hm Hinj.
  apply submseteq_length_Permutation.
  - apply NoDup_submseteq.
    + apply NoDup_fmap_2_strong; [|apply NoDup_seqZ].
      intros x y Hx%elem_of_seqZ Hy%elem_of_seqZ Hxy.
      apply Hinj; [lia|lia|exact Hxy].
    + intros x (y & -> & _)%list_elem_of_fmap.
      apply elem_of_seqZ. pose proof (Z.mod_pos_bound (f y) m Hm). lia.
  - rewrite length_fmap. reflexivity.
Qed.

(** * LinearProber *)

Lemma linear_probes_run {K : Type} start m (n : nat) : forall j,
  0 <= start -> 0 <= j -> j + Z.of_nat n <= m -> m < two64 ->
  start + m <= two64 ->
  probes (K:=K) n {| start_ := start; m_ := m; numProbes_ := j |} =
  ((fun i => (start + i) mod m) <$> seqZ j (Z.of_nat n),
   {| start_ := start; m_ := m; numProbes_ := j + Z.of_nat n |}).
Proof.
  induction n as [|n IH]; intros j Hs Hj Hjn Hm Hsm.
  - cbn. rewrite Z.add_0_r. reflexivity.
  - cbn [probes prober_next LinearProber.ops]. unfold LinearProber.next.
    cbn [m_ numProbes_ start_].
    destruct (Z.leb_spec m j) as [Hle|Hlt]; [lia|].
    rewrite (wrap64_small (start + j)) by lia.
    rewrite (wrap64_small (j + 1)) by lia.
    rewrite (IH (j + 1)) by lia.
    rewrite (seqZ_cons j (Z.of_nat (S n))) by lia.
    cbn [fmap list_fmap].
    replace (Z.pred (Z.of_nat (S n))) with (Z.of_nat n) by lia.
    replace (Z.succ j) with (j + 1) by lia.
    replace (j + 1 + Z.of_nat n) with (j + Z.of_nat (S n)) by lia.
    reflexivity.
Qed.

Lemma linear_probes_exhausted {K : Type} start m (n : nat) :
  probes (K:=K) n {| start_ := start; m_ := m; numProbes_ := m |} =
  (replicate n npos, {| start_ := start; m_ := m; numProbes_ := m |}).
Proof.
  induction n as [|n IH]; [reflexivity|].
  cbn [probes prober_next LinearProber.ops]. unfold LinearProber.next.
  cbn [m_ numProbes_ start_]. rewrite Z.leb_refl. rewrite IH. reflexivity.
Qed.

(** * DoubleHashProber *)

Section DoubleHash.
Context {K : Type} (h2_ : K -> Z).
Import DoubleHashProber.

Lemma double_probes_run start m step (n : nat) : forall j,
  0 <= start -> 0 <= step -> 0 <= j -> j + Z.of_nat n <= m -> m < two64 ->
  start + (m - 1) * step < two64 ->
  @probes K state (ops h2_) n
    {| base := {| start_ := start; m_ := m; numProbes_ := j |};
       dhstep_ := step |} =
  ((fun i => (start + i * step) mod m) <$> seqZ j (Z.of_nat n),
   {| base := {| start_ := start; m_ := m; numProbes_ := j + Z.of_nat n |};
      dhstep_ := step |}).
Proof.
  induction n as [|n IH]; intros j Hs Hst Hj Hjn Hm Hsm.
  - cbn. rewrite Z.add_0_r. reflexivity.
  - cbn [probes prober_next ops]. unfold next.
    cbn [base dhstep_ m_ numProbes_ start_].
    destruct (Z.leb_spec m j) as [Hle|Hlt]; [lia|].
    assert (Hjs : 0 <= j * step <= (m - 1) * step) by nia.
    rewrite (wrap64_small (j * step)) by lia.
    rewrite (wrap64_small (start + j * step)) by lia.
    rewrite (wrap64_small (j + 1)) by lia.
    rewrite (IH (j + 1)) by lia.
    rewrite (seqZ_cons j (Z.of_nat (S n))) by lia.
    cbn [fmap list_fmap].
    replace (Z.pred (Z.of_nat (S n))) with (Z.of_nat n) by lia.
    replace (Z.succ j) with (j + 1) by lia.
    replace (j + 1 + Z.of_nat n) with (j + Z.of_nat (S n)) by lia.
    reflexivity.
Qed.

Lemma double_probes_exhausted start m step (n : nat) :
  @probes K state (ops h2_) n
    {| base := {| start_ := start; m_ := m; numProbes_ := m |};
       dhstep_ := step |} =
  (replicate n npos,
   {| base := {| start_ := start; m_ := m; numProbes_ := m |};
      dhstep_ := step |}).
Proof.
  induction n as [|n IH]; [reflexivity|].
  cbn [probes prober_next ops]. unfold next.
  cbn [base dhstep_ m_ numProbes_ start_]. rewrite Z.leb_refl.
  rewrite IH. reflexivity.
Qed.
End DoubleHash.

Lemma modulus_loop_step n i sz v :
  DoubleHashProber.mod_value i = Some v ->
  DoubleHashProber.modulus_loop (S n) i sz =
  if sz <=? v then ([i; i - 1], DoubleHashProber.mod_value (i - 1))
  else (i :: fst (DoubleHashProber.modulus_loop n (i + 1) sz),
        snd (DoubleHashProber.modulus_loop n (i + 1) sz)).
Proof.
  intros Hv. cbn [DoubleHashProber.modulus_loop]. rewrite Hv.
  destruct (sz <=? v); [reflexivity|].
  destruct (DoubleHashProber.modulus_loop n (i + 1) sz); reflexivity.
Qed.

Ltac ladder_member :=
  unfold DoubleHashProber.DOUBLE_HASH_MOD_VALUES;
  solve [repeat (first [apply list_elem_of_here | apply list_elem_of_further])].

Ltac ladder_cases H :=
  unfold DoubleHashProber.DOUBLE_HASH_MOD_VALUES in H;
  repeat (apply elem_of_cons in H as [->|H]; [lia|]);
  apply elem_of_nil in H; contradiction.

Ltac modulus_step m :=
  match goal with
  | |- context [DoubleHashProber.modulus_loop (S ?n) ?i m] =>
      let r := eval vm_compute in (DoubleHashProber.mod_value i) in
      match r with
      | Some ?v => rewrite (modulus_loop_step n i m v eq_refl)
      end
  end.

Ltac modulus_found :=
  split;
  [ cbn [fst]; change DoubleHashProber.DOUBLE_HASH_MOD_SIZE with 28;
    repeat constructor; lia
  | cbn [snd]; eexists; split; [reflexivity|];
    split; [ladder_member|]; split; [lia|];
    let v := fresh "v" in let Hv := fresh "Hv" in
    intros v Hv ?; ladder_cases Hv ].

(** The modulus chosen for a table size above 7: every read of the
    ladder is inside the array, and the value is the largest ladder
    entry below the size. *)
Lemma findModulus_above_7 m :
  7 < m -> DoubleHashProber.modulus_ok m (DoubleHashProber.findModulus_trace m).
Proof.
  intros Hm.
  unfold DoubleHashProber.findModulus_trace.
  change (Z.to_nat DoubleHashProber.DOUBLE_HASH_MOD_SIZE) with 28%nat.
  modulus_step m.
  destruct (Z.leb_spec m 7); [lia|].
  unfold DoubleHashProber.modulus_ok. cbn [fst snd].
  do 27 (
    modulus_step m;
    match goal with
    | |- context [m <=? ?v] =>
        destruct (Z.leb_spec m v); [ modulus_found | cbn [fst snd] ]
    end).
  cbn [DoubleHashProber.modulus_loop]. modulus_found.
Qed.

(** * HashTable: counting Occupied slots *)

Section TableFacts.
Import HashTable.
Context {K V P : Type} `{ProberOps K P}.
Variable hash_ : K -> Z.
Variable kequal_ : K -> K -> bool.

Local Abbreviation slot := (option (@HashItem K V)).
Local Abbreviation Table := (@HashTable K V).
Local Abbreviation resize := (resize hash_ kequal_).
Local Abbreviation place := (place hash_ kequal_).
Local Abbreviation insert := (insert hash_ kequal_).
Local Abbreviation remove := (remove hash_ kequal_).
Local Abbreviation find := (find hash_ kequal_).
Local Abbreviation at_ := (at_ hash_ kequal_).
Local Abbreviation probe := (probe hash_ kequal_).
Local Abbreviation probe_from := (probe_from hash_ kequal_).
Local Abbreviation run := (run hash_ kequal_).
Local Abbreviation apply := (apply hash_ kequal_).
Local Abbreviation table_inv := (@table_inv K V).

Lemma fold_count (l : list slot) : forall a,
  fold_left (fun count s => if live s then count + 1 else count) l a =
  a + live_count l.
Proof.
  induction l as [|s l IH]; intros a; cbn [fold_left live_count]; [lia|].
  rewrite IH. destruct (live s); lia.
Qed.

Lemma size_live_count (t : Table) : size t = live_count (table_ t).
Proof. unfold size. rewrite fold_count. lia. Qed.

Lemma live_count_nonneg (l : list slot) : 0 <= live_count l.
Proof. induction l as [|s l IH]; cbn [live_count]; [lia|]. destruct (live s); lia. Qed.

Lemma live_count_replicate n : live_count (replicate n (None : slot)) = 0.
Proof. induction n as [|n IH]; cbn [replicate live_count live]; lia. Qed.

(** Writing one slot adds at most that slot to the count. *)
Lemma live_count_set (l : list slot) : forall i x,
  live_count (vec_set l i x) <= live_count l + (if live x then 1 else 0).
Proof.
  unfold vec_set. intros i. generalize (Z.to_nat i). clear i.
  induction l as [|s l IH]; intros n x.
  - simpl. destruct (live x); lia.
  - destruct n as [|n]; simpl.
    + destruct (live s), (live x); lia.
    + specialize (IH n x). lia.
Qed.

(** Marking a slot deleted never adds to the count. *)
Lemma live_count_set_dead (l : list slot) i x :
  live x = false -> live_count (vec_set l i x) <= live_count l.
Proof. intros Hx. pose proof (live_count_set l i x) as Hc. rewrite Hx in Hc. lia. Qed.

Lemma vec_set_length (l : list slot) i x : length (vec_set l i x) = length l.
Proof. unfold vec_set. apply length_insert. Qed.

(** * HashTable: probe *)

Lemma probe_loop_no_throw released (tbl : list slot) key fuel : forall p e,
  probe_loop kequal_ released tbl key fuel p <> Throw e.
Proof.
  induction fuel as [|fuel IH]; intros p e; cbn [probe_loop]; [discriminate|].
  destruct (prober_next p) as [loc p'].
  destruct (loc =? npos); [discriminate|].
  destruct (vec_get tbl loc) as [[it|]|]; try discriminate.
  destruct ((loc <? released) && deleted it); [discriminate|].
  destruct (deleted it || kequal_ (fst (item it)) key); [discriminate|].
  apply IH.
Qed.

Lemma probe_from_no_throw released (t : Table) key e :
  probe_from released t key <> Throw e.
Proof.
  unfold HashTable.probe_from.
  destruct (prober_init _ _ key); [apply probe_loop_no_throw|discriminate].
Qed.

Lemma find_no_throw (t : Table) key e : find t key <> Throw e.
Proof.
  unfold HashTable.find.
  destruct (probe t key) as [index|e'|f] eqn:Hp.
  - destruct (index =? npos); [discriminate|].
    destruct (vec_get (table_ t) index) as [[it|]|]; try discriminate.
    destruct (deleted it); discriminate.
  - exfalso. exact (probe_from_no_throw 0 t key e' Hp).
  - discriminate.
Qed.

(** * HashTable: what the mutating operations do to count and capacity *)

Lemma resize_loop_count (t : Table) (items : list slot) : forall i newTable r,
  resize_loop hash_ kequal_ t i items newTable = Ok r ->
  live_count r <= live_count newTable + live_count items /\
  length r = length newTable.
Proof.
  induction items as [|s rest IH]; intros i newTable r Hr; cbn [resize_loop] in Hr.
  - inversion Hr; subst. cbn [live_count]. lia.
  - destruct s as [it|]; cbn [live_count live].
    + destruct (deleted it); cbn [negb] in Hr |- *.
      * apply IH in Hr. lia.
      * destruct (probe_from i t (fst (item it))) as [index|e|f]; try discriminate.
        destruct (vec_get newTable index); [|discriminate].
        apply IH in Hr. destruct Hr as [Hc Hl].
        rewrite vec_set_length in Hl.
        pose proof (live_count_set newTable index (Some it)) as Hs.
        destruct (live (Some it)); lia.
    + apply IH in Hr. lia.
Qed.

Lemma resize_done (t t' : Table) :
  resize t = Done t' ->
  mIndex_ t' = wrap64 (mIndex_ t + 1) /\
  mIndex_ t' < CAPACITIES_SIZE /\
  size t' <= size t /\
  length (table_ t') = Z.to_nat (capacity t').
Proof.
  unfold HashTable.resize. intros Hr.
  destruct (Z.leb_spec CAPACITIES_SIZE (wrap64 (mIndex_ t + 1))); [discriminate|].
  destruct (resize_loop _ _ _ _ _ _) as [r|e|f] eqn:Hl; try discriminate.
  inversion Hr; subst t'. cbn [mIndex_ table_].
  apply resize_loop_count in Hl. destruct Hl as [Hc Hlen].
  rewrite live_count_replicate in Hc. rewrite length_replicate in Hlen.
  rewrite !size_live_count. cbn [table_]. unfold capacity. cbn [mIndex_].
  repeat split; try lia.
Qed.

Lemma resize_raise (t t' : Table) e : resize t = Raise e t' -> t' = t.
Proof.
  unfold HashTable.resize. intros Hr.
  destruct (CAPACITIES_SIZE <=? wrap64 (mIndex_ t + 1)); [congruence|].
  destruct (resize_loop _ _ _ _ _ _); congruence.
Qed.

Lemma place_done (t t' : Table) p :
  place t p = Done t' ->
  mIndex_ t' = mIndex_ t /\ size t' <= size t + 1 /\
  length (table_ t') = length (table_ t).
Proof.
  unfold HashTable.place. intros Hp.
  destruct (probe t (fst p)) as [index|e|f]; try discriminate.
  destruct (index =? npos); [discriminate|].
  destruct (vec_get (table_ t) index) as [[it|]|]; try discriminate;
    inversion Hp; subst t'; cbn [mIndex_ table_];
    rewrite !size_live_count; cbn [table_]; rewrite vec_set_length;
    match goal with
    | |- context [vec_set ?l ?i ?x] => pose proof (live_count_set l i x) as Hs
    end; cbn [live deleted new_HashItem negb] in Hs; lia.
Qed.

Lemma place_raise (t t' : Table) p e : place t p = Raise e t' -> t' = t.
Proof.
  unfold HashTable.place. intros Hp.
  destruct (probe t (fst p)) as [index|e'|f]; try congruence.
  destruct (index =? npos); [congruence|].
  destruct (vec_get (table_ t) index) as [[it|]|]; discriminate.
Qed.

Lemma remove_after (t t' : Table) key :
  table_after (remove t key) = Some t' ->
  mIndex_ t' = mIndex_ t /\ size t' <= size t /\
  length (table_ t') = length (table_ t).
Proof.
  unfold HashTable.remove. intros Hr.
  destruct (probe t key) as [index|e|f]; cbn [table_after] in Hr;
    [|inversion Hr; subst; lia|discriminate].
  destruct (negb (index =? npos)); [|inversion Hr; subst; lia].
  destruct (vec_get (table_ t) index) as [[it|]|]; cbn [table_after] in Hr;
    [|inversion Hr; subst; lia|discriminate].
  inversion Hr; subst t'; cbn [mIndex_ table_].
  rewrite !size_live_count; cbn [table_]. rewrite vec_set_length.
  pose proof (live_count_set_dead (table_ t) index
                (Some {| item := item it; deleted := true |}) eq_refl).
  lia.
Qed.

(** * HashTable: the capacity ladder *)

Lemma capacity_at_bounds i :
  0 <= i < CAPACITIES_SIZE -> 11 <= capacity_at i < 2 ^ 31.
Proof.
  intros Hi.
  assert (Hall : Forall (fun j => 11 <= capacity_at j < 2 ^ 31) (seqZ 0 CAPACITIES_SIZE)).
  { apply Forall_forall. intros j Hj.
    assert (Hb : forallb (fun j => (11 <=? capacity_at j) && (capacity_at j <? 2 ^ 31))
                   (seqZ 0 CAPACITIES_SIZE) = true) by (vm_compute; reflexivity).
    rewrite forallb_forall in Hb. apply list_elem_of_In in Hj.
    specialize (Hb j Hj). lia. }
  rewrite Forall_forall in Hall. apply Hall. apply elem_of_seqZ. lia.
Qed.

(** Consecutive capacities are at least 3 apart (in fact they roughly
    double). *)
Lemma capacity_at_step i :
  0 <= i -> i + 1 < CAPACITIES_SIZE -> 2 * capacity_at i + 5 <= 2 * capacity_at (i + 1).
Proof.
  intros Hi Hi'.
  assert (Hb : forallb (fun j => 2 * capacity_at j + 5 <=? 2 * capacity_at (j + 1))
                 (seqZ 0 (CAPACITIES_SIZE - 1)) = true) by (vm_compute; reflexivity).
  rewrite forallb_forall in Hb.
  assert (Hin : In i (seqZ 0 (CAPACITIES_SIZE - 1))).
  { apply list_elem_of_In, elem_of_seqZ. lia. }
  specialize (Hb i Hin). lia.
Qed.

(** At every capacity of the ladder the double-precision test changes
    its answer between the same two counts as the exact comparison: it
    fails at [floor (2c/5)] and holds at the next count. *)
Lemma load_reached_double_boundaries :
  forallb (fun c =>
             negb (DoubleTest.load_reached (2 * c / 5) c) &&
             DoubleTest.load_reached (2 * c / 5 + 1) c &&
             negb (load_reached (2 * c / 5) c) &&
             load_reached (2 * c / 5 + 1) c)
          CAPACITIES = true.
Proof. vm_compute. reflexivity. Qed.

(** One entry of the ladder is not a prime. *)
Example capacity_23_composite :
  capacity_at 23 = 105359969 /\ 105359969 = 11 * 9578179.
Proof. vm_compute. split; reflexivity. Qed.

(** * HashTable: the invariant between public operations *)

Lemma new_inv alpha : table_inv (new alpha : Table).
Proof.
  unfold table_inv, new, capacity. cbn [mIndex_ table_].
  rewrite size_live_count. cbn [table_].
  rewrite live_count_replicate, length_replicate.
  change (capacity_at 0) with 11. change CAPACITIES_SIZE with 28. lia.
Qed.

Lemma resize_inv (t t' : Table) :
  table_inv t -> resize t = Done t' ->
  table_inv t' /\ 2 * capacity t + 5 <= 2 * capacity t' /\ size t' <= size t.
Proof.
  intros (Hi & Hlen & Hload) Hr.
  apply resize_done in Hr. destruct Hr as (Hidx & Hlt & Hsz & Hl').
  change CAPACITIES_SIZE with 28 in *.
  rewrite wrap64_small in Hidx by (rewrite two64_eq; lia).
  assert (Hstep : 2 * capacity t + 5 <= 2 * capacity t').
  { unfold capacity. rewrite Hidx. apply capacity_at_step; [lia|].
    change CAPACITIES_SIZE with 28. lia. }
  split; [|split; [exact Hstep|exact Hsz]].
  unfold table_inv. change CAPACITIES_SIZE with 28.
  repeat split; lia.
Qed.

(** After a resize of a table between operations the ratio of Occupied
    slots to the new capacity is below 0.4. *)
Lemma resize_load_below_threshold (t t' : Table) :
  table_inv t -> resize t = Done t' -> 5 * size t' < 2 * capacity t'.
Proof.
  intros Hinv Hr. destruct (resize_inv t t' Hinv Hr) as (_ & Hcap & Hsz).
  destruct Hinv as (_ & _ & Hload). lia.
Qed.

Lemma place_inv (t t' : Table) p :
  table_inv t -> 5 * size t < 2 * capacity t ->
  table_after (place t p) = Some t' -> table_inv t'.
Proof.
  intros (Hi & Hlen & Hload) Hroom Hp.
  destruct (place t p) as [t1|e t1|f] eqn:Hpl; cbn [table_after] in Hp;
    inversion Hp; subst t1.
  - apply place_done in Hpl. destruct Hpl as (Hidx & Hsz & Hl).
    unfold table_inv, capacity in *. rewrite Hidx, Hl. repeat split; lia.
  - apply place_raise in Hpl. subst t'. unfold table_inv. auto.
Qed.

Lemma insert_inv (t t' : Table) p :
  table_inv t -> table_after (insert t p) = Some t' -> table_inv t'.
Proof.
  intros Hinv Hins. unfold HashTable.insert in Hins.
  unfold load_reached in Hins.
  destruct (Z.leb_spec (2 * capacity t) (5 * size t)) as [Hfull|Hroom].
  - destruct (resize t) as [t1|e t1|f] eqn:Hr.
    + destruct (resize_inv t t1 Hinv Hr) as (Hinv1 & Hcap & Hsz).
      apply (place_inv t1 t' p Hinv1); [|exact Hins].
      destruct Hinv as (_ & _ & Hload). lia.
    + cbn [table_after] in Hins. inversion Hins; subst t1.
      apply resize_raise in Hr. subst t'. exact Hinv.
    + discriminate.
  - apply (place_inv t t' p Hinv Hroom Hins).
Qed.

Lemma remove_inv (t t' : Table) key :
  table_inv t -> table_after (remove t key) = Some t' -> table_inv t'.
Proof.
  intros (Hi & Hlen & Hload) Hr.
  apply remove_after in Hr. destruct Hr as (Hidx & Hsz & Hl).
  unfold table_inv, capacity in *. rewrite Hidx, Hl. repeat split; lia.
Qed.

Lemma apply_inv (t t' : Table) o :
  table_inv t -> apply t o = Some t' -> table_inv t'.
Proof.
  intros Hinv Ha. destruct o as [p|key|key|key|]; cbn [HashTable.apply] in Ha.
  - exact (insert_inv t t' p Hinv Ha).
  - exact (remove_inv t t' key Hinv Ha).
  - destruct (find t key); inversion Ha; subst; exact Hinv.
  - destruct (at_ t key); inversion Ha; subst; exact Hinv.
  - destruct (resize t) as [t1|e t1|f] eqn:Hr; cbn [table_after] in Ha;
      inversion Ha; subst t1.
    + exact (proj1 (resize_inv t t' Hinv Hr)).
    + apply resize_raise in Hr. subst t'. exact Hinv.
Qed.

Lemma run_inv ops : forall (t t' : Table),
  table_inv t -> run ops t = Some t' -> table_inv t'.
Proof.
  induction ops as [|o ops IH]; intros t t' Hinv Hrun; cbn [HashTable.run] in Hrun.
  - inversion Hrun; subst. exact Hinv.
  - destruct (apply t o) as [t1|] eqn:Ha; [|discriminate].
    apply (IH t1 t'); [|exact Hrun]. exact (apply_inv t t1 o Hinv Ha).
Qed.
End TableFacts.

(** * The probers are bounded, so [probe] returns *)

Lemma linear_bounded {K : Type} start m (n : nat) : forall j,
  0 <= j -> j + Z.of_nat n = m -> m < two64 ->
  bounded_prober (K:=K) (S n) m {| start_ := start; m_ := m; numProbes_ := j |}.
Proof.
  induction n as [|n IH]; intros j Hj Hjn Hm;
    cbn [bounded_prober prober_next LinearProber.ops]; unfold LinearProber.next;
    cbn [m_ numProbes_ start_].
  - destruct (Z.leb_spec m j); [|lia]. left. reflexivity.
  - destruct (Z.leb_spec m j); [lia|]. right.
    pose proof (Z.mod_pos_bound (wrap64 (start + j)) m ltac:(lia)) as Hb.
    split; [exact Hb|]. split; [rewrite npos_eq; lia|].
    rewrite (wrap64_small (j + 1)) by lia. apply IH; lia.
Qed.

Lemma double_bounded {K : Type} (h2_ : K -> Z) start m step (n : nat) : forall j,
  0 <= j -> j + Z.of_nat n = m -> m < two64 ->
  @bounded_prober K _ (DoubleHashProber.ops h2_) (S n) m
    {| DoubleHashProber.base := {| start_ := start; m_ := m; numProbes_ := j |};
       DoubleHashProber.dhstep_ := step |}.
Proof.
  induction n as [|n IH]; intros j Hj Hjn Hm;
    cbn [bounded_prober prober_next DoubleHashProber.ops];
    unfold DoubleHashProber.next;
    cbn [DoubleHashProber.base DoubleHashProber.dhstep_ m_ numProbes_ start_].
  - destruct (Z.leb_spec m j); [|lia]. left. reflexivity.
  - destruct (Z.leb_spec m j); [lia|]. right.
    pose proof (Z.mod_pos_bound (wrap64 (start + wrap64 (j * step))) m ltac:(lia)) as Hb.
    split; [exact Hb|]. split; [rewrite npos_eq; lia|].
    rewrite (wrap64_small (j + 1)) by lia. apply IH; lia.
Qed.

Section ProbeReturns.
Import HashTable.
Context {K V P : Type} `{ProberOps K P}.
Variable hash_ : K -> Z.
Variable kequal_ : K -> K -> bool.

(** With a bounded prober and no released item, the loop of [probe]
    returns [npos] or the index of a slot of the vector. *)
Lemma probe_loop_returns (tbl : list (option (@HashItem K V))) key fuel : forall p,
  bounded_prober fuel (Z.of_nat (length tbl)) p ->
  exists loc, probe_loop kequal_ 0 tbl key fuel p = Ok loc /\
              (loc = npos \/ (loc <> npos /\ exists s, vec_get tbl loc = Some s)).
Proof.
  induction fuel as [|fuel IH]; intros p Hb; cbn [bounded_prober probe_loop] in *;
    [contradiction|].
  destruct (prober_next p) as [loc p'].
  destruct Hb as [->|(Hloc & Hne & Hb)].
  - rewrite Z.eqb_refl. eauto.
  - destruct (Z.eqb_spec loc npos) as [|_]; [contradiction|].
    assert (Hget : exists s, vec_get tbl loc = Some s).
    { unfold vec_get. destruct (Z.leb_spec 0 loc); [|lia].
      destruct (lookup_lt_is_Some_2 tbl (Z.to_nat loc)) as [s Hs]; [lia|]. eauto. }
    destruct Hget as [s Hs]. rewrite Hs.
    destruct s as [it|]; [|eauto 6].
    replace (loc <? 0) with false by (symmetry; apply Z.ltb_ge; lia).
    cbn [andb].
    destruct (deleted it || kequal_ (fst (item it)) key); [eauto 6|].
    apply IH. exact Hb.
Qed.

(** [find] returns whenever [probe] does. *)
Lemma find_returns_of_probe (t : @HashTable K V) key loc :
  probe hash_ kequal_ t key = Ok loc ->
  (loc = npos \/ (loc <> npos /\ exists s, vec_get (table_ t) loc = Some s)) ->
  exists r, find hash_ kequal_ t key = Ok r.
Proof.
  intros Hp Hloc. unfold HashTable.find. rewrite Hp.
  destruct Hloc as [->|(Hne & s & Hs)].
  - rewrite Z.eqb_refl. eauto.
  - destruct (Z.eqb_spec loc npos); [contradiction|]. rewrite Hs.
    destruct s as [it|]; [destruct (deleted it)|]; eauto.
Qed.
End ProbeReturns.

(** On a table between operations [find] returns a result, with the
    default prober and with the double-hash prober. *)
Lemma find_returns_linear {K V : Type} (hash_ : K -> Z) kequal_
      (t : @HashTable.HashTable K V) key :
  HashTable.table_inv t ->
  exists r, HashTable.find hash_ kequal_ t key = Ok r.
Proof.
  intros (Hi & Hlen & _).
  pose proof (capacity_at_bounds (HashTable.mIndex_ t) Hi) as Hcap.
  fold (HashTable.capacity t) in Hcap.
  destruct (probe_loop_returns kequal_ (HashTable.table_ t) key
              (S (Z.to_nat (HashTable.capacity t)))
              (LinearProber.init (hash_ key mod HashTable.capacity t)
                 (HashTable.capacity t) key)) as (loc & Hp & Hloc).
  { rewrite Hlen, Z2Nat.id by lia. apply linear_bounded; [lia|lia|].
    rewrite two64_eq. lia. }
  apply (find_returns_of_probe hash_ kequal_ t key loc); [|exact Hloc].
  exact Hp.
Qed.

Lemma find_returns_double {K V : Type} (h2_ hash_ : K -> Z) kequal_
      (t : @HashTable.HashTable K V) key :
  HashTable.table_inv t ->
  exists r, @HashTable.find K V _ (DoubleHashProber.ops h2_) hash_ kequal_ t key = Ok r.
Proof.
  intros (Hi & Hlen & _).
  pose proof (capacity_at_bounds (HashTable.mIndex_ t) Hi) as Hcap.
  fold (HashTable.capacity t) in Hcap.
  destruct (findModulus_above_7 (HashTable.capacity t) ltac:(lia))
    as (_ & modulus & Hmod & _).
  cbn [snd] in Hmod.
  assert (Hinit : DoubleHashProber.init h2_ (hash_ key mod HashTable.capacity t)
                    (HashTable.capacity t) key =
                  Some {| DoubleHashProber.base :=
                            Prober_init (hash_ key mod HashTable.capacity t)
                              (HashTable.capacity t);
                          DoubleHashProber.dhstep_ :=
                            wrap64 (modulus - h2_ key mod modulus) |}).
  { unfold DoubleHashProber.init.
    fold (DoubleHashProber.findModulusToUseFromTableSize (HashTable.capacity t)) in Hmod.
    rewrite Hmod. reflexivity. }
  destruct (@probe_loop_returns K V _ (DoubleHashProber.ops h2_) kequal_
              (HashTable.table_ t) key
              (S (Z.to_nat (HashTable.capacity t)))
              {| DoubleHashProber.base :=
                   Prober_init (hash_ key mod HashTable.capacity t)
                     (HashTable.capacity t);
                 DoubleHashProber.dhstep_ :=
                   wrap64 (modulus - h2_ key mod modulus) |})
    as (loc & Hp & Hloc).
  { rewrite Hlen, Z2Nat.id by lia. apply double_bounded; [lia|lia|].
    rewrite two64_eq. lia. }
  apply (@find_returns_of_probe K V _ (DoubleHashProber.ops h2_) hash_ kequal_ t key loc);
    [|exact Hloc].
  unfold HashTable.probe, HashTable.probe_from.
  cbn [prober_init DoubleHashProber.ops]. rewrite Hinit. exact Hp.
Qed.

(** * MyStringHash: what the groups cover *)

Lemma wrap_int_small z : - 2 ^ 31 <= z < 2 ^ 31 -> wrap_int z = z.
Proof. intros Hz. unfold wrap_int. rewrite Z.mod_small; lia. Qed.

(** At negative positions the loop of [computeSubstringValue] adds
    nothing. *)
Lemma substring_loop_negative k n : forall i value base,
  i < 0 -> MyStringHash.substring_loop k n i value base = value.
Proof.
  induction n as [|n IH]; intros i value base Hi; cbn [MyStringHash.substring_loop];
    [reflexivity|].
  destruct (Z.leb_spec 0 i); [lia|]. cbn [andb]. apply IH. lia.
Qed.

Lemma computeSubstringValue_negative k start end_ :
  end_ <= 0 -> MyStringHash.computeSubstringValue k start end_ = 0.
Proof.
  intros He. unfold MyStringHash.computeSubstringValue.
  apply substring_loop_negative. lia.
Qed.

(** For a key shorter than [2^31] characters, [operator()] is the last
    coefficient times the value of the group that ends at [len % 6]: the
    four other groups lie before the start of the key. *)
Lemma hash_reads_first_group k :
  MyStringHash.str_length k < 2 ^ 31 ->
  MyStringHash.hash k =
  wrap64 (261934300 *
          MyStringHash.computeSubstringValue k
            (MyStringHash.str_length k mod 6 - 6) (MyStringHash.str_length k mod 6)).
Proof.
  intros Hlen. unfold MyStringHash.hash.
  assert (H0 : 0 <= MyStringHash.str_length k)
    by (unfold MyStringHash.str_length; lia).
  rewrite (wrap_int_small (MyStringHash.str_length k)) by lia.
  rewrite Z.rem_mod_nonneg by lia.
  pose proof (Z.mod_pos_bound (MyStringHash.str_length k) 6 ltac:(lia)) as Hr.
  set (r := MyStringHash.str_length k mod 6) in *.
  cbn [MyStringHash.fill_w].
  rewrite (wrap_int_small (r - 6)) by lia.
  rewrite (wrap_int_small (r - 6 - 6)) by lia.
  rewrite (wrap_int_small (r - 6 - 6 - 6)) by lia.
  rewrite (wrap_int_small (r - 6 - 6 - 6 - 6)) by lia.
  rewrite (wrap_int_small (r - 6 - 6 - 6 - 6 - 6)) by lia.
  rewrite (computeSubstringValue_negative k _ (r - 6)) by lia.
  rewrite (computeSubstringValue_negative k _ (r - 6 - 6)) by lia.
  rewrite (computeSubstringValue_negative k _ (r - 6 - 6 - 6)) by lia.
  rewrite (computeSubstringValue_negative k _ (r - 6 - 6 - 6 - 6)) by lia.
  unfold MyStringHash.rValues. cbn [MyStringHash.weighted_sum].
  rewrite !Z.mul_0_r.
  change (wrap64 (wrap64 (wrap64 (wrap64 (0 + wrap64 0) + wrap64 0) + wrap64 0) + wrap64 0))
    with 0.
  rewrite Z.add_0_l. unfold wrap64. apply Z.mod_mod. discriminate.
Qed.

(** So two keys of equal length that agree on their first [len % 6]
    characters have the same hash value, whatever the rest is. *)
Example hash_ignores_the_tail :
  MyStringHash.hash "key-number-one" = MyStringHash.hash "ke0123456789ab" /\
  MyStringHash.hash "abcdefghijklmnopqrstuvwxyz0123" = 0.
Proof. vm_compute. split; reflexivity. Qed.

(** * Settled properties: MyStringHash *)

(** [operator()] starts its first group at [len % 6], so a key of 31
    characters contributes its first character only. *)
Example hash_of_31_characters :
  MyStringHash.hash "xabcdefghijklmnopqrstuvwxyz0123" = 23 * 261934300.
Proof. vm_compute. reflexivity. Qed.

(** A key whose length is a multiple of 6 hashes to 0. *)
Example hash_of_6_characters :
  MyStringHash.hash "abcdef" = 0 /\ MyStringHash.hash "zzzzzz" = 0 /\
  MyStringHash.hash "" = 0.
Proof. vm_compute. repeat split. Qed.

(** C6 (divergence).  Two keys of 31 characters with the same last 30
    characters and different first characters get different hash values:
    the value is decided by the first [len % 6] characters, not by the
    last 30. *)
Theorem hash_differs_on_equal_last_30 :
  StringTable.last_chars 30 "xabcdefghijklmnopqrstuvwxyz0123" =
  StringTable.last_chars 30 "yabcdefghijklmnopqrstuvwxyz0123" /\
  MyStringHash.hash "xabcdefghijklmnopqrstuvwxyz0123" = 6024488900 /\
  MyStringHash.hash "yabcdefghijklmnopqrstuvwxyz0123" = 6286423200 /\
  MyStringHash.hash "xabcdefghijklmnopqrstuvwxyz0123" <>
  MyStringHash.hash "yabcdefghijklmnopqrstuvwxyz0123".
Proof. vm_compute. repeat split. discriminate. Qed.

(** * Settled properties: probers *)

(** C8 (counterexample).  The sum [start_ + numProbes_] wraps at [2^64].
    With [m = 3] and [start = 2^64 - 1] the three probes are 0, 0, 1:
    index 2 is never visited, and the second probe is not
    [(start + 1) mod 3 = 1].  With a start index inside the table,
    [m = 2^64 - 1] and [start = 2^64 - 2], the third probe repeats index
    0, where [(start + 2) mod m] is 1. *)
Lemma linear_probe_wraps :
  (fst (probes (K:=unit) 3 (LinearProber.init (two64 - 1) 3 tt)) = [0; 0; 1] /\
   (two64 - 1 + 1) mod 3 = 1) /\
  (two64 - 2 < two64 - 1 /\
   fst (probes (K:=unit) 3 (LinearProber.init (two64 - 2) (two64 - 1) tt)) =
     [two64 - 2; 0; 0] /\
   (two64 - 2 + 2) mod (two64 - 1) = 1).
Proof. vm_compute. repeat split. Qed.

(** C8 (amended).  For a capacity [m >= 1] and a start index with
    [start + m <= 2^64] (so that no sum wraps), the first [m] calls of
    [next] return [(start + i) mod m] for [i = 0 .. m-1], which is every
    index of the table exactly once, and every later call returns [npos]. *)
Theorem linear_probe_sequence {K : Type} (key : K) (start m : Z) :
  1 <= m < two64 -> 0 <= start -> start + m <= two64 ->
  fst (probes (K:=K) (Z.to_nat m) (LinearProber.init start m key)) =
    (fun i => (start + i) mod m) <$> seqZ 0 m /\
  fst (probes (K:=K) (Z.to_nat m) (LinearProber.init start m key)) ≡ₚ seqZ 0 m /\
  forall n,
    fst (probes (K:=K) n (snd (probes (K:=K) (Z.to_nat m) (LinearProber.init start m key)))) =
    replicate n npos.
Proof.
  intros Hm Hs Hsm. unfold LinearProber.init, Prober_init.
  rewrite (linear_probes_run start m (Z.to_nat m) 0) by lia.
  rewrite Z2Nat.id by lia. cbn [fst snd]. split; [reflexivity|]. split.
  - apply (residues_permutation (fun i => start + i) m); [lia|].
    intros i j Hi Hj Heq. apply (affine_mod_inj start 1 m); try lia.
    + apply Z.gcd_1_l.
    + rewrite !Z.mul_1_r. exact Heq.
  - intros n. rewrite Z.add_0_l, linear_probes_exhausted. reflexivity.
Qed.

Lemma linear_probe_sequence_witness :
  fst (probes (K:=unit) (Z.to_nat 11) (LinearProber.init 7 11 tt)) =
    (fun i => (7 + i) mod 11) <$> seqZ 0 11 /\
  fst (probes (K:=unit) (Z.to_nat 11) (LinearProber.init 7 11 tt)) ≡ₚ seqZ 0 11 /\
  forall n,
    fst (probes (K:=unit) n (snd (probes (K:=unit) (Z.to_nat 11) (LinearProber.init 7 11 tt)))) =
    replicate n npos.
Proof.
  apply (linear_probe_sequence tt 7 11); [vm_compute; split; [discriminate|reflexivity]
                                         | lia | vm_compute; discriminate].
Defined.

(** The prober of a table of capacity at most 7 reads the ladder at
    index -1. *)
Lemma double_hash_init_capacity_7 :
  DoubleHashProber.findModulus_reads 7 = [0; -1] /\
  DoubleHashProber.init MyStringHash.hash 0 7 "a" = None.
Proof. vm_compute. split; reflexivity. Qed.

(** C7 (counterexample).  The sum [start_ + numProbes_ * dhstep_] wraps
    at [2^64].  With capacity 11, start [2^64 - 1] and the key ["b"]
    (modulus 7, step 2) the second probe is 1, where
    [(start + step) mod 11] is 6.  With a start index inside the table,
    capacity [2^64 - 1], start [2^64 - 2] and the key ["a"], whose hash
    is 0, the step is the last ladder value and the second probe is
    [step - 2], where [(start + step) mod capacity] is [step - 1]. *)
Lemma double_hash_probe_wraps :
  (DoubleHashProber.init MyStringHash.hash (two64 - 1) 11 "b" =
     Some {| DoubleHashProber.base := Prober_init (two64 - 1) 11;
             DoubleHashProber.dhstep_ := 2 |} /\
   fst (@probes string _ (DoubleHashProber.ops MyStringHash.hash) 2
          {| DoubleHashProber.base := Prober_init (two64 - 1) 11;
             DoubleHashProber.dhstep_ := 2 |}) = [4; 1] /\
   (two64 - 1 + 1 * 2) mod 11 = 6) /\
  (DoubleHashProber.init MyStringHash.hash (two64 - 2) (two64 - 1) "a" =
     Some {| DoubleHashProber.base := Prober_init (two64 - 2) (two64 - 1);
             DoubleHashProber.dhstep_ := 1685759113 |} /\
   fst (@probes string _ (DoubleHashProber.ops MyStringHash.hash) 2
          {| DoubleHashProber.base := Prober_init (two64 - 2) (two64 - 1);
             DoubleHashProber.dhstep_ := 1685759113 |}) =
     [two64 - 2; 1685759111] /\
   (two64 - 2 + 1 * 1685759113) mod (two64 - 1) = 1685759112).
Proof. vm_compute. repeat split. Qed.

(** C7 (amended).  For a capacity [m > 7], [init] chooses as modulus the
    largest ladder value strictly below [m] and sets the step to
    [modulus - h2(key) mod modulus]; if [start + (m - 1) * step < 2^64]
    (no sum wraps) the first [m] probes are [(start + i * step) mod m]
    for [i = 0 .. m-1], every later call returns [npos], and when the
    step is coprime to [m] the [m] probes are all [m] indices, each
    once. *)
Theorem double_hash_probe_sequence {K : Type} (h2_ : K -> Z) (key : K)
        (start m : Z) :
  7 < m < two64 -> 0 <= start ->
  exists modulus p,
    DoubleHashProber.findModulusToUseFromTableSize m = Some modulus /\
    modulus ∈ DoubleHashProber.DOUBLE_HASH_MOD_VALUES /\
    modulus < m /\
    (forall v, v ∈ DoubleHashProber.DOUBLE_HASH_MOD_VALUES -> v < m -> v <= modulus) /\
    DoubleHashProber.init h2_ start m key = Some p /\
    DoubleHashProber.dhstep_ p = modulus - h2_ key mod modulus /\
    (start + (m - 1) * DoubleHashProber.dhstep_ p < two64 ->
     fst (@probes K _ (DoubleHashProber.ops h2_) (Z.to_nat m) p) =
       (fun i => (start + i * DoubleHashProber.dhstep_ p) mod m) <$> seqZ 0 m /\
     (Z.gcd (DoubleHashProber.dhstep_ p) m = 1 ->
      fst (@probes K _ (DoubleHashProber.ops h2_) (Z.to_nat m) p) ≡ₚ seqZ 0 m) /\
     forall n,
       fst (@probes K _ (DoubleHashProber.ops h2_) n
              (snd (@probes K _ (DoubleHashProber.ops h2_) (Z.to_nat m) p))) =
       replicate n npos).
Proof.
  intros Hm Hs.
  destruct (findModulus_above_7 m ltac:(lia)) as (_ & modulus & Hmod & Hin & Hlt & Hmax).
  fold (DoubleHashProber.findModulusToUseFromTableSize m) in Hmod.
  assert (Hpos : 7 <= modulus).
  { apply Hmax; [|lia]. unfold DoubleHashProber.DOUBLE_HASH_MOD_VALUES.
    apply list_elem_of_here. }
  pose proof (Z.mod_pos_bound (h2_ key) modulus ltac:(lia)) as Hh.
  exists modulus.
  exists {| DoubleHashProber.base := Prober_init start m;
            DoubleHashProber.dhstep_ := modulus - h2_ key mod modulus |}.
  split; [exact Hmod|]. split; [exact Hin|]. split; [exact Hlt|].
  split; [exact Hmax|]. split.
  { unfold DoubleHashProber.init. rewrite Hmod.
    rewrite wrap64_small by (rewrite two64_eq in *; lia). reflexivity. }
  cbn [DoubleHashProber.dhstep_]. split; [reflexivity|].
  set (step := modulus - h2_ key mod modulus). intros Hwrap.
  unfold Prober_init.
  rewrite (double_probes_run h2_ start m step (Z.to_nat m) 0) by lia.
  rewrite Z2Nat.id by lia. cbn [fst snd]. split; [reflexivity|]. split.
  - intros Hg.
    apply (residues_permutation (fun i => start + i * step) m); [lia|].
    intros i j Hi Hj Heq. apply (affine_mod_inj start step m); lia.
  - intros n. rewrite Z.add_0_l, double_probes_exhausted. reflexivity.
Qed.

Lemma double_hash_probe_sequence_witness :
  exists modulus p,
    DoubleHashProber.findModulusToUseFromTableSize 11 = Some modulus /\
    modulus ∈ DoubleHashProber.DOUBLE_HASH_MOD_VALUES /\
    modulus < 11 /\
    (forall v, v ∈ DoubleHashProber.DOUBLE_HASH_MOD_VALUES -> v < 11 -> v <= modulus) /\
    DoubleHashProber.init MyStringHash.hash 3 11 "b" = Some p /\
    DoubleHashProber.dhstep_ p =
      modulus - MyStringHash.hash "b" mod modulus /\
    (3 + (11 - 1) * DoubleHashProber.dhstep_ p < two64 ->
     fst (@probes string _ (DoubleHashProber.ops MyStringHash.hash) (Z.to_nat 11) p) =
       (fun i => (3 + i * DoubleHashProber.dhstep_ p) mod 11) <$> seqZ 0 11 /\
     (Z.gcd (DoubleHashProber.dhstep_ p) 11 = 1 ->
      fst (@probes string _ (DoubleHashProber.ops MyStringHash.hash) (Z.to_nat 11) p) ≡ₚ
        seqZ 0 11) /\
     forall n,
       fst (@probes string _ (DoubleHashProber.ops MyStringHash.hash) n
              (snd (@probes string _ (DoubleHashProber.ops MyStringHash.hash)
                      (Z.to_nat 11) p))) =
       replicate n npos).
Proof.
  apply (double_hash_probe_sequence MyStringHash.hash "b"%string 3 11);
    [vm_compute; split; reflexivity | lia].
Defined.

(** The probes of that table: capacity 11, modulus 7, step 2. *)
Example double_hash_probes_11 :
  option_map (fun p => fst (@probes string _ (DoubleHashProber.ops MyStringHash.hash) 12 p))
    (DoubleHashProber.init MyStringHash.hash 3 11 "b") =
  Some [3; 5; 7; 9; 0; 2; 4; 6; 8; 10; 1; npos].
Proof. vm_compute. reflexivity. Qed.

Lemma capacities_at_least_11 c : c ∈ HashTable.CAPACITIES -> 11 <= c.
Proof.
  intros Hc. unfold HashTable.CAPACITIES in Hc.
  repeat (apply elem_of_cons in Hc as [->|Hc]; [lia|]).
  apply elem_of_nil in Hc. contradiction.
Qed.

(** On a table of the ladder no sum of the double-hash prober wraps. *)
Lemma double_hash_no_wrap_on_ladder m start step :
  m ∈ HashTable.CAPACITIES -> 0 <= start < m -> 0 <= step <= m ->
  start + (m - 1) * step < two64.
Proof.
  intros Hm Hs Hst.
  assert (Hb : 11 <= m < 2 ^ 31).
  { unfold HashTable.CAPACITIES in Hm.
    repeat (apply elem_of_cons in Hm as [->|Hm]; [lia|]).
    apply elem_of_nil in Hm. contradiction. }
  rewrite two64_eq. nia.
Qed.

(** C10.  For a capacity above 7, and so for every capacity of the
    table's ladder (all at least 11), every read of
    [DOUBLE_HASH_MOD_VALUES] made by [findModulusToUseFromTableSize] is at
    an index of the array, and a modulus is returned. *)
Theorem findModulus_reads_in_bounds (m : Z) :
  7 < m \/ m ∈ HashTable.CAPACITIES ->
  Forall (fun i => 0 <= i < DoubleHashProber.DOUBLE_HASH_MOD_SIZE)
         (DoubleHashProber.findModulus_reads m) /\
  exists modulus,
    DoubleHashProber.findModulusToUseFromTableSize m = Some modulus /\
    modulus ∈ DoubleHashProber.DOUBLE_HASH_MOD_VALUES /\ modulus < m.
Proof.
  intros Hm.
  assert (Hm' : 7 < m).
  { destruct Hm as [Hm|Hm]; [exact Hm|]. apply capacities_at_least_11 in Hm. lia. }
  destruct (findModulus_above_7 m Hm') as (Hreads & modulus & Hmod & Hin & Hlt & _).
  split; [exact Hreads|]. exists modulus. auto.
Qed.

Lemma findModulus_reads_in_bounds_witness :
  Forall (fun i => 0 <= i < DoubleHashProber.DOUBLE_HASH_MOD_SIZE)
         (DoubleHashProber.findModulus_reads 23) /\
  exists modulus,
    DoubleHashProber.findModulusToUseFromTableSize 23 = Some modulus /\
    modulus ∈ DoubleHashProber.DOUBLE_HASH_MOD_VALUES /\ modulus < 23.
Proof.
  apply (findModulus_reads_in_bounds 23). left. lia.
Defined.

(** * Settled properties: the table *)

Section TableClaims.
Import HashTable.
Context {K V P : Type} `{ProberOps K P}.
Variable hash_ : K -> Z.
Variable kequal_ : K -> K -> bool.

(** The constructor does not keep its argument. *)
Lemma new_ignores_resizeAlpha (a b : Q) : (new a : @HashTable K V) = new b.
Proof. reflexivity. Qed.

Lemma resize_loop_no_throw (t : @HashTable K V) items : forall i newTable e,
  resize_loop hash_ kequal_ t i items newTable <> Throw e.
Proof.
  induction items as [|s rest IH]; intros i newTable e; cbn [resize_loop];
    [discriminate|].
  destruct s as [it|]; [|apply IH].
  destruct (negb (deleted it)); [|apply IH].
  destruct (probe_from hash_ kequal_ i t (fst (item it))) as [index|e'|f] eqn:Hp.
  - destruct (vec_get newTable index); [apply IH|discriminate].
  - exfalso. exact (probe_from_no_throw hash_ kequal_ i t _ e' Hp).
  - discriminate.
Qed.

(** [resize] only throws at the last capacity. *)
Lemma resize_raise_last (t t' : @HashTable K V) e :
  resize hash_ kequal_ t = Raise e t' ->
  CAPACITIES_SIZE <= wrap64 (mIndex_ t + 1).
Proof.
  unfold HashTable.resize. destruct (Z.leb_spec CAPACITIES_SIZE (wrap64 (mIndex_ t + 1)));
    [intros _; lia|].
  destruct (resize_loop _ _ _ _ _ _) as [r|e'|f] eqn:Hl; try discriminate.
  exfalso. exact (resize_loop_no_throw t _ _ _ e' Hl).
Qed.

(** Below the last capacity, [insert] goes through [resize] exactly when
    five times the Occupied count reaches twice the capacity, that is
    when the ratio is at least 0.4, whatever threshold the table was
    constructed with. *)
Lemma insert_resized_iff_load_reached (t : @HashTable K V) p b :
  table_inv t -> mIndex_ t + 1 < CAPACITIES_SIZE ->
  insert_resized hash_ kequal_ t p = Some b ->
  b = load_reached (size t) (capacity t).
Proof.
  intros (Hi & _ & _) Hlast. unfold insert_resized, HashTable.insert.
  assert (Hw : wrap64 (mIndex_ t + 1) = mIndex_ t + 1).
  { apply wrap64_small. change CAPACITIES_SIZE with 28 in *. rewrite two64_eq. lia. }
  assert (Hplace : forall t1 t2 : @HashTable K V,
             table_after (place hash_ kequal_ t1 p) = Some t2 -> mIndex_ t2 = mIndex_ t1).
  { intros t1 t2 Ha. destruct (place hash_ kequal_ t1 p) as [t3|e t3|f] eqn:Hp;
      cbn [table_after] in Ha; inversion Ha; subst t3.
    - apply place_done in Hp. tauto.
    - apply place_raise in Hp. subst. reflexivity. }
  destruct (load_reached (size t) (capacity t)).
  - destruct (resize hash_ kequal_ t) as [t1|e t1|f] eqn:Hr.
    + apply resize_done in Hr. destruct Hr as (Hidx & _).
      destruct (table_after (place hash_ kequal_ t1 p)) as [t2|] eqn:Ha; [|discriminate].
      apply Hplace in Ha. intros Hb. inversion Hb; subst b.
      destruct (Z.eqb_spec (mIndex_ t2) (mIndex_ t)); [lia|reflexivity].
    + apply resize_raise_last in Hr. lia.
    + discriminate.
  - destruct (table_after (place hash_ kequal_ t p)) as [t2|] eqn:Ha; [|discriminate].
    apply Hplace in Ha. intros Hb. inversion Hb; subst b.
    rewrite Ha, Z.eqb_refl. reflexivity.
Qed.

(** C9.  [at] throws the key-not-found error exactly when [find] returns
    null, returns the value of the pair [find] points to otherwise, and
    throws nothing else; [find] never throws. *)
Theorem at_agrees_with_find (t : @HashTable K V) (key : K) :
  (at_ hash_ kequal_ t key = Throw (out_of_range "Key not found") <->
   find hash_ kequal_ t key = Ok None) /\
  (forall v, at_ hash_ kequal_ t key = Ok v <->
             exists it, find hash_ kequal_ t key = Ok (Some it) /\ snd it = v) /\
  (forall e, at_ hash_ kequal_ t key = Throw e -> e = out_of_range "Key not found") /\
  (forall e, find hash_ kequal_ t key <> Throw e).
Proof.
  pose proof (find_no_throw hash_ kequal_ t key) as Hnt.
  unfold HashTable.at_.
  destruct (find hash_ kequal_ t key) as [[it|]|e|f].
  - split; [split; discriminate|]. split; [|split; [discriminate|exact Hnt]].
    intros v. split.
    + intros Hv. inversion Hv. eauto.
    + intros (it' & Hf & Hv). inversion Hf; subst. reflexivity.
  - split; [split; reflexivity|]. split; [|split; [|exact Hnt]].
    + intros v. split; [discriminate|]. intros (it' & Hf & _). discriminate.
    + intros e He. inversion He. reflexivity.
  - exfalso. exact (Hnt e eq_refl).
  - split; [split; discriminate|]. split; [|split; [discriminate|exact Hnt]].
    intros v. split; [discriminate|]. intros (it' & Hf & _). discriminate.
Qed.

(** C4 (amended).  After every sequence of public operations on a table
    constructed with the default threshold, the Occupied count less one,
    divided by the capacity, is below 0.4: [insert] tests the ratio
    before it places its entry, so between operations the ratio may
    exceed 0.4, by less than one entry. *)
Theorem occupancy_bound_between_operations (ops : list (@operation K V))
        (t : @HashTable K V) :
  run hash_ kequal_ ops (new default_alpha) = Some t ->
  5 * (size t - 1) < 2 * capacity t.
Proof.
  intros Hrun.
  apply (run_inv hash_ kequal_ ops (new default_alpha) t (new_inv default_alpha)) in Hrun.
  destruct Hrun as (_ & _ & Hload). exact Hload.
Qed.
End TableClaims.

(** ** On the table of strings *)

(** The scenarios of the design document that the table meets: plain
    lookups, a key inserted again after its removal, and [at] on a
    missing key. *)
Example scenario_cat_dog :
  exists t : StringTable.table,
    StringTable.run [HashTable.Insert ("cat", 1); HashTable.Insert ("dog", 2)]
      (HashTable.new HashTable.default_alpha) = Some t /\
    StringTable.find t "cat" = Ok (Some ("cat", 1)) /\
    StringTable.find t "bird" = Ok None /\
    StringTable.at_ t "missing" = Throw (out_of_range "Key not found").
Proof. eexists. split; [vm_compute; reflexivity|]. vm_compute. repeat split. Qed.

Example scenario_reinsert :
  exists t : StringTable.table,
    StringTable.run
      [HashTable.Insert ("x", 1); HashTable.Remove "x"; HashTable.Insert ("x", 2)]
      (HashTable.new HashTable.default_alpha) = Some t /\
    StringTable.find t "x" = Ok (Some ("x", 2)) /\ HashTable.size t = 1.
Proof. eexists. split; [vm_compute; reflexivity|]. vm_compute. repeat split. Qed.

(** The keys ["a"] and ["l"] both hash to slot 0 of a table of capacity
    11; ["b"] hashes to slot 1 there and to slot 19 at capacity 23. *)
Example string_slots :
  MyStringHash.hash "a" mod 11 = 0 /\ MyStringHash.hash "l" mod 11 = 0 /\
  MyStringHash.hash "b" mod 11 = 1 /\ MyStringHash.hash "b" mod 23 = 19.
Proof. vm_compute. repeat split. Qed.

(** A tombstone ends the probe of every key whose sequence passes over
    it: after ["a"] is removed, ["l"], placed behind it, is not found. *)
Lemma find_stops_at_tombstone :
  exists t : StringTable.table,
    StringTable.run
      [HashTable.Insert ("a", 1); HashTable.Insert ("l", 2); HashTable.Remove "a"]
      (HashTable.new HashTable.default_alpha) = Some t /\
    StringTable.spec_lookup
      [HashTable.Insert ("a", 1); HashTable.Insert ("l", 2); HashTable.Remove "a"]
      "l" = Some 2 /\
    StringTable.find t "l" = Ok None.
Proof. eexists. split; [vm_compute; reflexivity|]. vm_compute. repeat split. Qed.

(** C1 (divergence).  After insert ("a", 1), remove "a", insert ("l", 2)
    the second insert lands on the tombstone of ["a"] and overwrites its
    value only: [find "l"] returns null although 2 was inserted for
    ["l"] and never removed, and [find "a"] returns the pair ("a", 2)
    although ["a"] was removed. *)
Theorem find_after_insert_on_tombstone :
  exists t : StringTable.table,
    StringTable.run
      [HashTable.Insert ("a", 1); HashTable.Remove "a"; HashTable.Insert ("l", 2)]
      (HashTable.new HashTable.default_alpha) = Some t /\
    StringTable.spec_lookup
      [HashTable.Insert ("a", 1); HashTable.Remove "a"; HashTable.Insert ("l", 2)]
      "l" = Some 2 /\
    StringTable.find t "l" = Ok None /\
    StringTable.spec_lookup
      [HashTable.Insert ("a", 1); HashTable.Remove "a"; HashTable.Insert ("l", 2)]
      "a" = None /\
    StringTable.find t "a" = Ok (Some ("a", 2)).
Proof. eexists. split; [vm_compute; reflexivity|]. vm_compute. repeat split. Qed.

(** C2 (divergence).  [resize] probes each key in the table it is
    leaving: the entry of ["b"] goes to index 1, its slot at capacity 11,
    of the new vector of capacity 23, where [find] looks for it at index
    19 and returns null. *)
Theorem resize_loses_key :
  exists t1 t2 : StringTable.table,
    StringTable.run [HashTable.Insert ("b", 1)]
      (HashTable.new HashTable.default_alpha) = Some t1 /\
    StringTable.find t1 "b" = Ok (Some ("b", 1)) /\
    StringTable.resize t1 = HashTable.Done t2 /\
    HashTable.capacity t2 = 23 /\
    vec_get (HashTable.table_ t2) 1 = Some (Some (HashTable.new_HashItem ("b", 1))) /\
    MyStringHash.hash "b" mod HashTable.capacity t2 = 19 /\
    StringTable.find t2 "b" = Ok None.
Proof.
  eexists. eexists. split; [vm_compute; reflexivity|].
  split; [vm_compute; reflexivity|]. split; [vm_compute; reflexivity|].
  vm_compute. repeat split.
Qed.

(** The same happens to the entries carried over by the resize that
    [insert] triggers: of the five keys inserted before it, only ["a"]
    (slot 0 at both capacities) is still found. *)
Lemma insert_resize_loses_keys :
  exists t : StringTable.table,
    StringTable.run
      [HashTable.Insert ("a", 1); HashTable.Insert ("b", 2); HashTable.Insert ("c", 3);
       HashTable.Insert ("d", 4); HashTable.Insert ("e", 5); HashTable.Insert ("f", 6)]
      (HashTable.new HashTable.default_alpha) = Some t /\
    HashTable.capacity t = 23 /\ HashTable.size t = 6 /\
    map (fun k => StringTable.find t k) ["a"; "b"; "c"; "d"; "e"; "f"] =
    [Ok (Some ("a", 1)); Ok None; Ok None; Ok None; Ok None; Ok (Some ("f", 6))].
Proof. eexists. split; [vm_compute; reflexivity|]. vm_compute. repeat split. Qed.

(** [resize] hands the items of deleted slots to [delete] while the
    vector still points to them; the probe of a later key that passes
    over such a slot reads the released item. *)
Lemma resize_reads_released_item :
  exists t : StringTable.table,
    StringTable.run
      [HashTable.Insert ("a", 1); HashTable.Insert ("l", 2); HashTable.Remove "a"]
      (HashTable.new HashTable.default_alpha) = Some t /\
    StringTable.resize t = HashTable.Broken undefined_behaviour.
Proof. eexists. split; [vm_compute; reflexivity|]. vm_compute. reflexivity. Qed.

(** C3 (divergence).  After insert ("b", 1), resize, insert ("b", 2) two
    Occupied slots hold the key ["b"]: the one [resize] left at index 1
    and the one the second insert made at index 19. *)
Theorem resize_then_insert_duplicates_key :
  exists t : StringTable.table,
    StringTable.run
      [HashTable.Insert ("b", 1); HashTable.Resize; HashTable.Insert ("b", 2)]
      (HashTable.new HashTable.default_alpha) = Some t /\
    StringTable.holders t "b" = [1; 19] /\
    vec_get (HashTable.table_ t) 1 = Some (Some (HashTable.new_HashItem ("b", 1))) /\
    vec_get (HashTable.table_ t) 19 = Some (Some (HashTable.new_HashItem ("b", 2))).
Proof. eexists. split; [vm_compute; reflexivity|]. vm_compute. repeat split. Qed.

(** Without a call of [resize] by the caller: the sixth insert resizes,
    and inserting ["b"] again makes a second Occupied slot for it. *)
Lemma insert_only_duplicates_key :
  exists t : StringTable.table,
    StringTable.run
      [HashTable.Insert ("a", 1); HashTable.Insert ("b", 2); HashTable.Insert ("c", 3);
       HashTable.Insert ("d", 4); HashTable.Insert ("e", 5); HashTable.Insert ("f", 6);
       HashTable.Insert ("b", 7)]
      (HashTable.new HashTable.default_alpha) = Some t /\
    StringTable.holders t "b" = [1; 19].
Proof. eexists. split; [vm_compute; reflexivity|]. vm_compute. repeat split. Qed.

(** C4 (counterexample).  After five inserts into a table with the default
    threshold no resize has happened: 5 of 11 slots are Occupied, a ratio
    above 0.4, when the next operation starts. *)
Lemma occupancy_above_threshold :
  exists t : StringTable.table,
    StringTable.run
      [HashTable.Insert ("a", 1); HashTable.Insert ("b", 2); HashTable.Insert ("c", 3);
       HashTable.Insert ("d", 4); HashTable.Insert ("e", 5)]
      (HashTable.new HashTable.default_alpha) = Some t /\
    HashTable.size t = 5 /\ HashTable.capacity t = 11 /\
    (HashTable.default_alpha < inject_Z (HashTable.size t) / inject_Z (HashTable.capacity t))%Q.
Proof.
  eexists. split; [vm_compute; reflexivity|].
  split; [vm_compute; reflexivity|]. split; [vm_compute; reflexivity|].
  vm_compute. reflexivity.
Qed.

Lemma occupancy_bound_witness :
  exists t : StringTable.table,
    StringTable.run
      [HashTable.Insert ("a", 1); HashTable.Insert ("b", 2); HashTable.Insert ("c", 3);
       HashTable.Insert ("d", 4); HashTable.Insert ("e", 5)]
      (HashTable.new HashTable.default_alpha) = Some t /\
    5 * (HashTable.size t - 1) < 2 * HashTable.capacity t.
Proof.
  eexists. split; [vm_compute; reflexivity|].
  apply (occupancy_bound_between_operations MyStringHash.hash String.eqb
           [HashTable.Insert ("a", 1); HashTable.Insert ("b", 2); HashTable.Insert ("c", 3);
            HashTable.Insert ("d", 4); HashTable.Insert ("e", 5)]).
  vm_compute. reflexivity.
Defined.

(** C5 (divergence).  A table constructed with threshold 0.9 resizes in
    the insert that finds 5 of 11 slots Occupied (ratio below 0.9), and a
    table constructed with threshold 0.1 does not resize in the insert
    that finds 4 of 11 Occupied (ratio above 0.1): the test is against
    0.4 in both. *)
Theorem insert_threshold_ignores_resizeAlpha :
  (exists t : StringTable.table,
     StringTable.run
       [HashTable.Insert ("a", 1); HashTable.Insert ("b", 2); HashTable.Insert ("c", 3);
        HashTable.Insert ("d", 4); HashTable.Insert ("e", 5)]
       (HashTable.new 0.9) = Some t /\
     (inject_Z (HashTable.size t) / inject_Z (HashTable.capacity t) < 0.9)%Q /\
     StringTable.insert_resized t ("f", 6) = Some true) /\
  (exists t : StringTable.table,
     StringTable.run
       [HashTable.Insert ("a", 1); HashTable.Insert ("b", 2); HashTable.Insert ("c", 3);
        HashTable.Insert ("d", 4)]
       (HashTable.new 0.1) = Some t /\
     (0.1 <= inject_Z (HashTable.size t) / inject_Z (HashTable.capacity t))%Q /\
     StringTable.insert_resized t ("e", 5) = Some false).
Proof.
  split; eexists; (split; [vm_compute; reflexivity|]);
    (split; [vm_compute; try reflexivity; discriminate|]); vm_compute; reflexivity.
Qed.

(** * Further properties of the code *)

(** * More on the table: what [probe] depends on *)

Section TableMore.
Import HashTable.
Context {K V P : Type} `{ProberOps K P}.
Variable hash_ : K -> Z.
Variable kequal_ : K -> K -> bool.

Local Abbreviation slot := (option (@HashItem K V)).
Local Abbreviation Table := (@HashTable K V).
Local Abbreviation stops := (@stops K V kequal_).

Lemma vec_get_range {A : Type} (l : list A) i x :
  vec_get l i = Some x -> 0 <= i < Z.of_nat (length l).
Proof.
  unfold vec_get. destruct (Z.leb_spec 0 i); [|discriminate].
  intros Hl. apply lookup_lt_Some in Hl. lia.
Qed.

Lemma vec_get_set_eq {A : Type} (l : list A) i x y :
  vec_get l i = Some y -> vec_get (vec_set l i x) i = Some x.
Proof.
  intros Hy. pose proof (vec_get_range l i y Hy) as Hr.
  unfold vec_get, vec_set. destruct (Z.leb_spec 0 i); [|lia].
  apply list_lookup_insert_eq. lia.
Qed.

Lemma vec_get_set_ne {A : Type} (l : list A) i j x :
  0 <= i -> i <> j -> vec_get (vec_set l i x) j = vec_get l j.
Proof.
  intros Hi Hne. unfold vec_get, vec_set. destruct (Z.leb_spec 0 j); [|reflexivity].
  apply list_lookup_insert_ne. lia.
Qed.

(** One round of the loop of [probe], with no released item. *)
Lemma probe_loop_step (tbl : list slot) key fuel p :
  probe_loop kequal_ 0 tbl key (S fuel) p =
  if fst (prober_next p) =? npos then Ok npos
  else match vec_get tbl (fst (prober_next p)) with
       | None => Fault undefined_behaviour
       | Some s =>
           if stops s key then Ok (fst (prober_next p))
           else probe_loop kequal_ 0 tbl key fuel (snd (prober_next p))
       end.
Proof.
  cbn [probe_loop]. destruct (prober_next p) as [loc p']. cbn [fst snd].
  destruct (loc =? npos); [reflexivity|].
  destruct (vec_get tbl loc) as [[it|]|] eqn:Hg; [|reflexivity|reflexivity].
  apply vec_get_range in Hg.
  replace (loc <? 0) with false by (symmetry; apply Z.ltb_ge; lia).
  reflexivity.
Qed.

(** The slot [probe] returns ends the probe of the key. *)
Lemma probe_loop_stops (tbl : list slot) key fuel : forall p i,
  probe_loop kequal_ 0 tbl key fuel p = Ok i -> i <> npos ->
  exists s, vec_get tbl i = Some s /\ stops s key = true.
Proof.
  induction fuel as [|fuel IH]; intros p i Hp Hi; [discriminate|].
  rewrite probe_loop_step in Hp.
  destruct (fst (prober_next p) =? npos); [congruence|].
  destruct (vec_get tbl (fst (prober_next p))) as [s|] eqn:Hg; [|discriminate].
  destruct (stops s key) eqn:Hs.
  - inversion Hp; subst i. eauto.
  - eapply IH; eauto.
Qed.

(** Writing a slot that ends the probe of [key] over the slot [probe]
    returned does not change what [probe] returns. *)
Lemma probe_loop_set_same (tbl : list slot) key x i fuel : forall p,
  probe_loop kequal_ 0 tbl key fuel p = Ok i -> i <> npos ->
  stops x key = true ->
  probe_loop kequal_ 0 (vec_set tbl i x) key fuel p = Ok i.
Proof.
  induction fuel as [|fuel IH]; intros p Hp Hi Hx; [discriminate|].
  destruct (probe_loop_stops tbl key (S fuel) p i Hp Hi) as (si & Hsi & Hstop).
  pose proof (vec_get_range _ _ _ Hsi) as Hr.
  rewrite probe_loop_step in Hp |- *.
  destruct (fst (prober_next p) =? npos); [congruence|].
  destruct (Z.eq_dec (fst (prober_next p)) i) as [->|Hne].
  - rewrite (vec_get_set_eq tbl i x si Hsi), Hx. reflexivity.
  - rewrite vec_get_set_ne by lia.
    destruct (vec_get tbl (fst (prober_next p))) as [s|]; [|discriminate].
    destruct (stops s key); [congruence|]. apply IH; assumption.
Qed.

(** Writing a slot elsewhere than where [probe] stops does not change
    what [probe] returns, if the new slot lets the probe pass whenever
    the old one did. *)
Lemma probe_loop_set_other (tbl : list slot) key x si i j fuel : forall p,
  probe_loop kequal_ 0 tbl key fuel p = Ok j -> i <> j ->
  vec_get tbl i = Some si ->
  (stops si key = false -> stops x key = false) ->
  probe_loop kequal_ 0 (vec_set tbl i x) key fuel p = Ok j.
Proof.
  induction fuel as [|fuel IH]; intros p Hp Hne Hsi Hx; [discriminate|].
  pose proof (vec_get_range _ _ _ Hsi) as Hr.
  rewrite probe_loop_step in Hp |- *.
  destruct (fst (prober_next p) =? npos); [exact Hp|].
  destruct (Z.eq_dec (fst (prober_next p)) i) as [Heq|Hne'].
  - rewrite Heq in *. rewrite (vec_get_set_eq tbl i x si Hsi). rewrite Hsi in Hp.
    destruct (stops si key) eqn:Hs; [congruence|].
    rewrite (Hx eq_refl). apply IH; assumption.
  - rewrite vec_get_set_ne by lia.
    destruct (vec_get tbl (fst (prober_next p))) as [s|]; [|discriminate].
    destruct (stops s key); [exact Hp|]. apply IH; assumption.
Qed.

(** The count after writing one slot of the vector. *)
Lemma live_count_set_exact (l : list slot) : forall i s x,
  vec_get l i = Some s ->
  live_count (vec_set l i x) =
  live_count l - (if live s then 1 else 0) + (if live x then 1 else 0).
Proof.
  intros i s x Hs. pose proof (vec_get_range _ _ _ Hs) as Hr.
  unfold vec_get in Hs. destruct (Z.leb_spec 0 i); [|lia].
  unfold vec_set. revert Hs. generalize (Z.to_nat i). clear.
  induction l as [|a l IH]; intros n Hs; [discriminate|].
  destruct n as [|n]; simpl in *.
  - inversion Hs; subst. destruct (live s), (live x); lia.
  - rewrite (IH n Hs). lia.
Qed.

(** What [find] returns, read off the slot [probe] stops at. *)
Lemma find_of_probe (t : Table) key i s :
  probe hash_ kequal_ t key = Ok i -> i <> npos ->
  vec_get (table_ t) i = Some s ->
  find hash_ kequal_ t key =
  Ok (match s with
      | Some it => if deleted it then None else Some (item it)
      | None => None
      end).
Proof.
  intros Hp Hi Hs. unfold HashTable.find. rewrite Hp.
  destruct (Z.eqb_spec i npos); [contradiction|]. rewrite Hs.
  destruct s as [it|]; [destruct (deleted it)|]; reflexivity.
Qed.

(** Conversely, a key that [find] finds sits, Occupied and equal, in the
    slot [probe] returns. *)
Lemma find_some_probe (t : Table) key kv :
  find hash_ kequal_ t key = Ok (Some kv) ->
  exists i it,
    probe hash_ kequal_ t key = Ok i /\ i <> npos /\
    vec_get (table_ t) i = Some (Some it) /\
    deleted it = false /\ item it = kv /\ kequal_ (fst kv) key = true.
Proof.
  unfold HashTable.find. intros Hf.
  destruct (probe hash_ kequal_ t key) as [i|e|f] eqn:Hp; try discriminate.
  destruct (Z.eqb_spec i npos); [discriminate|].
  destruct (vec_get (table_ t) i) as [[it|]|] eqn:Hg; try discriminate.
  destruct (deleted it) eqn:Hd; [discriminate|].
  inversion Hf; subst kv. exists i, it. repeat split; try assumption.
  unfold HashTable.probe, HashTable.probe_from in Hp.
  destruct (prober_init _ _ key) as [p|]; [|discriminate].
  destruct (probe_loop_stops _ _ _ _ _ Hp n) as (s & Hs & Hstop).
  rewrite Hg in Hs. inversion Hs; subst s. cbn [HashTable.stops] in Hstop.
  rewrite Hd in Hstop. exact Hstop.
Qed.

(** [probe] on a table whose vector was written at one index. *)
Lemma probe_set_same (t : Table) key i x :
  probe hash_ kequal_ t key = Ok i -> i <> npos -> stops x key = true ->
  probe hash_ kequal_ {| table_ := vec_set (table_ t) i x; mIndex_ := mIndex_ t |} key
  = Ok i.
Proof.
  unfold HashTable.probe, HashTable.probe_from, capacity. cbn [table_ mIndex_].
  destruct (prober_init _ _ key) as [p|]; [|discriminate].
  apply probe_loop_set_same.
Qed.

Lemma probe_set_other (t : Table) key i j x si :
  probe hash_ kequal_ t key = Ok j -> i <> j ->
  vec_get (table_ t) i = Some si ->
  (stops si key = false -> stops x key = false) ->
  probe hash_ kequal_ {| table_ := vec_set (table_ t) i x; mIndex_ := mIndex_ t |} key
  = Ok j.
Proof.
  unfold HashTable.probe, HashTable.probe_from, capacity. cbn [table_ mIndex_].
  destruct (prober_init _ _ key) as [p|]; [|discriminate].
  intros Hp Hne Hsi Hx. eapply probe_loop_set_other; eauto.
Qed.

Lemma probe_stops (t : Table) key i :
  probe hash_ kequal_ t key = Ok i -> i <> npos ->
  exists s, vec_get (table_ t) i = Some s /\ stops s key = true.
Proof.
  unfold HashTable.probe, HashTable.probe_from.
  destruct (prober_init _ _ key) as [p|]; [|discriminate].
  apply probe_loop_stops.
Qed.
End TableMore.

(** * More on the table: remove, insert, find *)

Section TableExtras.
Import HashTable.
Context {K V P : Type} `{ProberOps K P}.
Variable hash_ : K -> Z.
Variable kequal_ : K -> K -> bool.

Local Abbreviation slot := (option (@HashItem K V)).
Local Abbreviation Table := (@HashTable K V).
Local Abbreviation stops := (@stops K V kequal_).
Local Abbreviation probe := (probe hash_ kequal_).
Local Abbreviation find := (find hash_ kequal_).
Local Abbreviation at_ := (at_ hash_ kequal_).
Local Abbreviation insert := (insert hash_ kequal_).
Local Abbreviation remove := (remove hash_ kequal_).
Local Abbreviation resize := (resize hash_ kequal_).

(** X1.  After [remove(key)] returns, [find(key)] returns null and
    [at(key)] throws the key-not-found error, whatever the table held;
    the capacity is unchanged and the Occupied count has gone down by
    one if [find(key)] found the key before, and not at all otherwise. *)
Theorem remove_then_find (t t' : Table) (key : K) :
  remove t key = Done t' ->
  find t' key = Ok None /\
  at_ t' key = Throw (out_of_range "Key not found") /\
  mIndex_ t' = mIndex_ t /\
  size t' = size t - (match find t key with Ok (Some _) => 1 | _ => 0 end).
Proof.
  intros Hr.
  assert (Hfind : find t' key = Ok None /\ mIndex_ t' = mIndex_ t /\
                  size t' = size t - (match find t key with Ok (Some _) => 1 | _ => 0 end)).
  { unfold HashTable.remove in Hr.
    destruct (probe t key) as [i|e|f] eqn:Hp; try discriminate.
    destruct (Z.eqb_spec i npos) as [->|Hi]; cbn [negb] in Hr.
    - inversion Hr; subst t'. unfold HashTable.find. rewrite Hp, Z.eqb_refl.
      repeat split; lia.
    - destruct (vec_get (table_ t) i) as [[it|]|] eqn:Hg; try discriminate;
        inversion Hr; subst t'; clear Hr.
      + set (x := Some {| item := item it; deleted := true |}).
        assert (Hp' : probe {| table_ := vec_set (table_ t) i x; mIndex_ := mIndex_ t |} key
                      = Ok i)
          by (apply probe_set_same; [exact Hp|exact Hi|reflexivity]).
        split.
        { rewrite (find_of_probe hash_ kequal_ _ key i x Hp' Hi); [reflexivity|].
          cbn [table_]. exact (vec_get_set_eq _ _ _ _ Hg). }
        split; [reflexivity|].
        rewrite (find_of_probe hash_ kequal_ t key i _ Hp Hi Hg).
        rewrite !size_live_count. cbn [table_].
        rewrite (live_count_set_exact (table_ t) i _ x Hg).
        subst x. cbn [live deleted negb]. destruct (deleted it); cbn [negb]; lia.
      + rewrite (find_of_probe hash_ kequal_ t key i _ Hp Hi Hg).
        repeat split; lia. }
  destruct Hfind as (Hf & Hm & Hs). repeat split; try assumption.
  unfold HashTable.at_. rewrite Hf. reflexivity.
Qed.

(** X2.  An [insert] that does not resize, of a key that [find] finds,
    returns normally; afterwards [find] returns the stored key with the
    new value, and the Occupied count and the capacity are unchanged. *)
Theorem insert_present_key (t : Table) (key : K) (v : V) (kv : K * V) :
  load_reached (size t) (capacity t) = false ->
  find t key = Ok (Some kv) ->
  exists t',
    insert t (key, v) = Done t' /\
    find t' key = Ok (Some (fst kv, v)) /\
    size t' = size t /\ mIndex_ t' = mIndex_ t.
Proof.
  intros Hload Hf.
  destruct (find_some_probe hash_ kequal_ t key kv Hf)
    as (i & it & Hp & Hi & Hg & Hd & Hit & Heq).
  unfold HashTable.insert. rewrite Hload. unfold HashTable.place. cbn [fst snd].
  rewrite Hp. destruct (Z.eqb_spec i npos); [contradiction|]. rewrite Hg.
  eexists. split; [reflexivity|].
  set (x := Some {| item := (fst (item it), v); deleted := false |}).
  assert (Hx : stops x key = true).
  { subst x. cbn [HashTable.stops deleted item fst orb]. rewrite Hit. exact Heq. }
  pose proof (probe_set_same hash_ kequal_ t key i x Hp Hi Hx) as Hp'.
  split; [|split; [|reflexivity]].
  - rewrite (find_of_probe hash_ kequal_ _ key i x Hp' Hi).
    + subst x. cbn [deleted item]. rewrite Hit. reflexivity.
    + cbn [table_]. exact (vec_get_set_eq _ _ _ _ Hg).
  - rewrite !size_live_count. cbn [table_].
    rewrite (live_count_set_exact (table_ t) i _ x Hg).
    subst x. cbn [live deleted negb]. rewrite Hd. cbn [negb]. lia.
Qed.

(** X3.  An [insert] that does not resize leaves every other key that
    [find] found where it was: [find] returns the same pair for it
    afterwards.  (Other: no key is equal to both.) *)
Theorem insert_keeps_other_keys (t t' : Table) (key key2 : K) (v : V) (kv2 : K * V) :
  load_reached (size t) (capacity t) = false ->
  (forall x, kequal_ x key = true -> kequal_ x key2 = false) ->
  insert t (key, v) = Done t' ->
  find t key2 = Ok (Some kv2) ->
  find t' key2 = Ok (Some kv2).
Proof.
  intros Hload Hother Hins Hf2.
  destruct (find_some_probe hash_ kequal_ t key2 kv2 Hf2)
    as (j & it2 & Hp2 & Hj & Hg2 & Hd2 & Hit2 & Heq2).
  unfold HashTable.insert in Hins. rewrite Hload in Hins.
  unfold HashTable.place in Hins. cbn [fst snd] in Hins.
  destruct (probe t key) as [i|e|f] eqn:Hp; try discriminate.
  destruct (Z.eqb_spec i npos) as [|Hi]; [discriminate|].
  destruct (probe_stops hash_ kequal_ t key i Hp Hi) as (si & Hsi & Hstop).
  assert (Hne : i <> j).
  { intros ->. rewrite Hg2 in Hsi. inversion Hsi; subst si.
    cbn [HashTable.stops] in Hstop. rewrite Hd2 in Hstop. cbn [orb] in Hstop.
    apply Hother in Hstop. rewrite Hit2 in Hstop. congruence. }
  pose proof (vec_get_range _ _ _ Hsi) as Hr.
  rewrite Hsi in Hins.
  assert (Hgen : forall x,
             (stops si key2 = false -> stops x key2 = false) ->
             find {| table_ := vec_set (table_ t) i x; mIndex_ := mIndex_ t |} key2
             = Ok (Some kv2)).
  { intros x Hx.
    pose proof (probe_set_other hash_ kequal_ t key2 i j x si Hp2 Hne Hsi Hx) as Hp2'.
    rewrite (find_of_probe hash_ kequal_ _ key2 j (Some it2) Hp2' Hj).
    - rewrite Hd2, Hit2. reflexivity.
    - cbn [table_]. rewrite vec_get_set_ne by lia. exact Hg2. }
  destruct si as [it|]; inversion Hins; subst t'; apply Hgen.
  - cbn [HashTable.stops deleted item fst]. intros Hs.
    apply orb_false_iff in Hs. destruct Hs as [_ Hs]. rewrite Hs. reflexivity.
  - cbn [HashTable.stops]. discriminate.
Qed.

(** X4.  Round trip on a table without tombstones: after an [insert] of
    [(key, v)] that does not resize and returns, [at(key)] returns [v];
    the Occupied count has grown by one if [find(key)] did not find the
    key before, and not at all otherwise. *)
Theorem insert_then_at (t t' : Table) (key : K) (v : V) :
  load_reached (size t) (capacity t) = false ->
  no_tombstones t = true ->
  kequal_ key key = true ->
  insert t (key, v) = Done t' ->
  at_ t' key = Ok v /\
  (exists k0, find t' key = Ok (Some (k0, v)) /\ kequal_ k0 key = true) /\
  size t' = size t + (match find t key with Ok (Some _) => 0 | _ => 1 end) /\
  mIndex_ t' = mIndex_ t.
Proof.
  intros Hload Hnt Hrefl Hins.
  unfold HashTable.insert in Hins. rewrite Hload in Hins.
  unfold HashTable.place in Hins. cbn [fst snd] in Hins.
  destruct (probe t key) as [i|e|f] eqn:Hp; try discriminate.
  destruct (Z.eqb_spec i npos) as [|Hi]; [discriminate|].
  destruct (probe_stops hash_ kequal_ t key i Hp Hi) as (si & Hsi & Hstop).
  rewrite Hsi in Hins.
  assert (Hlive : forall it, si = Some it -> deleted it = false).
  { intros it ->. unfold no_tombstones in Hnt. rewrite forallb_forall in Hnt.
    unfold vec_get in Hsi. destruct (0 <=? i); [|discriminate].
    apply list_elem_of_lookup_2, list_elem_of_In in Hsi.
    specialize (Hnt _ Hsi). cbn in Hnt. destruct (deleted it); [discriminate|reflexivity]. }
  assert (Hgen : forall k0 it0,
             kequal_ k0 key = true ->
             it0 = {| item := (k0, v); deleted := false |} ->
             t' = {| table_ := vec_set (table_ t) i (Some it0); mIndex_ := mIndex_ t |} ->
             find t' key = Ok (Some (k0, v)) /\
             size t' = size t + (if live si then 0 else 1)).
  { intros k0 it0 Hk0 -> ->.
    set (x := Some {| item := (k0, v); deleted := false |}).
    assert (Hx : stops x key = true) by (subst x; cbn [HashTable.stops deleted item fst orb]; exact Hk0).
    pose proof (probe_set_same hash_ kequal_ t key i x Hp Hi Hx) as Hp'.
    split.
    - rewrite (find_of_probe hash_ kequal_ _ key i x Hp' Hi); [reflexivity|].
      cbn [table_]. exact (vec_get_set_eq _ _ _ _ Hsi).
    - rewrite !size_live_count. cbn [table_].
      rewrite (live_count_set_exact (table_ t) i si x Hsi).
      subst x. cbn [live deleted negb]. destruct (live si); lia. }
  rewrite (find_of_probe hash_ kequal_ t key i si Hp Hi Hsi).
  destruct si as [it|]; inversion Hins as [Ht']; clear Hins.
  - pose proof (Hlive it eq_refl) as Hd.
    cbn [HashTable.stops] in Hstop. rewrite Hd in Hstop. cbn [orb] in Hstop.
    destruct (Hgen (fst (item it)) _ Hstop eq_refl (eq_sym Ht')) as (Hf & Hs).
    subst t'. cbn [mIndex_]. unfold HashTable.at_. rewrite Hf. cbn [snd].
    split; [reflexivity|]. split; [eauto|]. split; [|reflexivity].
    rewrite Hs. cbn [live]. rewrite Hd. reflexivity.
  - destruct (Hgen key _ Hrefl eq_refl (eq_sym Ht')) as (Hf & Hs).
    subst t'. cbn [mIndex_]. unfold HashTable.at_. rewrite Hf. cbn [snd].
    split; [reflexivity|]. split; [eauto|]. split; [|reflexivity].
    rewrite Hs. reflexivity.
Qed.
End TableExtras.

(** * More on the table: resize, capacity, size *)

Section TableShape.
Import HashTable.
Context {K V P : Type} `{ProberOps K P}.
Variable hash_ : K -> Z.
Variable kequal_ : K -> K -> bool.

Local Abbreviation slot := (option (@HashItem K V)).
Local Abbreviation Table := (@HashTable K V).
Local Abbreviation resize := (resize hash_ kequal_).
Local Abbreviation run := (run hash_ kequal_).
Local Abbreviation apply := (apply hash_ kequal_).

(** Every slot the loop of [resize] leaves in the new vector was there
    before or is an Occupied slot of the vector it visits. *)
Lemma resize_loop_slots (t : Table) (Q : slot -> Prop) (items : list slot) :
  forall i newTable r,
    resize_loop hash_ kequal_ t i items newTable = Ok r ->
    Forall Q newTable ->
    (forall s, s ∈ items -> live s = true -> Q s) ->
    Forall Q r.
Proof.
  induction items as [|s rest IH]; intros i newTable r Hr Hnew Hitems;
    cbn [resize_loop] in Hr.
  - inversion Hr; subst. exact Hnew.
  - assert (Hrest : forall s', s' ∈ rest -> live s' = true -> Q s').
    { intros s' Hin. apply Hitems. apply list_elem_of_further. exact Hin. }
    destruct s as [it|]; [|eapply IH; eauto].
    destruct (deleted it) eqn:Hd; cbn [negb] in Hr; [eapply IH; eauto|].
    destruct (probe_from hash_ kequal_ i t (fst (item it))) as [index|e|f]; try discriminate.
    destruct (vec_get newTable index); [|discriminate].
    eapply IH; [exact Hr| |exact Hrest].
    unfold vec_set. apply Forall_insert; [exact Hnew|].
    apply Hitems; [apply list_elem_of_here|]. cbn [live]. rewrite Hd. reflexivity.
Qed.

(** X5.  When [resize] returns on a table between operations, the
    capacity index has advanced by one and the vector has the new
    capacity as its length; every slot of the new vector is null or an
    Occupied slot of the old one (no tombstone is carried over, no entry
    is made up or changed); the Occupied count has not grown, and it is
    below two fifths of the new capacity. *)
Theorem resize_postconditions (t t' : Table) :
  table_inv t -> resize t = Done t' ->
  mIndex_ t' = mIndex_ t + 1 /\
  length (table_ t') = Z.to_nat (capacity_at (mIndex_ t + 1)) /\
  Forall (fun s => s = None \/ (live s = true /\ s ∈ table_ t)) (table_ t') /\
  no_tombstones t' = true /\
  size t' <= size t /\
  5 * size t' < 2 * capacity t'.
Proof.
  intros Hinv Hr.
  destruct (resize_inv hash_ kequal_ t t' Hinv Hr) as ((Hi' & Hlen' & _) & Hcap & Hsz).
  destruct Hinv as (Hi & Hlen & Hload).
  assert (Hidx : mIndex_ t' = mIndex_ t + 1).
  { apply resize_done in Hr. destruct Hr as (Hidx & _). rewrite Hidx.
    apply wrap64_small. change CAPACITIES_SIZE with 28 in Hi. rewrite two64_eq. lia. }
  assert (Hslots : Forall (fun s => s = None \/ (live s = true /\ s ∈ table_ t)) (table_ t')).
  { unfold HashTable.resize in Hr.
    destruct (CAPACITIES_SIZE <=? wrap64 (mIndex_ t + 1)); [discriminate|].
    destruct (resize_loop _ _ _ _ _ _) as [r|e|f] eqn:Hl; try discriminate.
    inversion Hr; subst t'. cbn [table_].
    eapply resize_loop_slots; [exact Hl| |].
    - apply Forall_replicate. left. reflexivity.
    - intros s Hin Hlive. right. split; assumption. }
  split; [exact Hidx|]. split; [unfold capacity in Hlen'; rewrite Hidx in Hlen'; exact Hlen'|].
  split; [exact Hslots|]. split; [|split; [exact Hsz|lia]].
  unfold no_tombstones. apply forallb_forall. intros s Hin.
  rewrite Forall_forall in Hslots. apply list_elem_of_In in Hin.
  destruct (Hslots s Hin) as [->|(Hlive & _)]; [reflexivity|].
  destruct s as [it|]; [exact Hlive|reflexivity].
Qed.


Lemma capacity_at_mono i j :
  0 <= i -> i <= j -> j < CAPACITIES_SIZE -> capacity_at i <= capacity_at j.
Proof.
  intros Hi Hij Hj.
  assert (Hb : forallb (fun a => forallb (fun b => capacity_at a <=? capacity_at (a + b))
                                   (seqZ 0 (CAPACITIES_SIZE - a)))
                 (seqZ 0 CAPACITIES_SIZE) = true) by (vm_compute; reflexivity).
  rewrite forallb_forall in Hb.
  assert (Hin : In i (seqZ 0 CAPACITIES_SIZE)) by (apply list_elem_of_In, elem_of_seqZ; lia).
  specialize (Hb i Hin). rewrite forallb_forall in Hb.
  assert (Hin' : In (j - i) (seqZ 0 (CAPACITIES_SIZE - i)))
    by (apply list_elem_of_In, elem_of_seqZ; lia).
  specialize (Hb (j - i) Hin'). replace (i + (j - i)) with j in Hb by lia. lia.
Qed.

Lemma capacity_at_in_ladder i :
  0 <= i < CAPACITIES_SIZE -> capacity_at i ∈ CAPACITIES.
Proof.
  intros Hi. unfold capacity_at. apply list_elem_of_In, nth_In.
  change CAPACITIES_SIZE with (Z.of_nat (length CAPACITIES)) in Hi. lia.
Qed.

Lemma apply_mIndex (t t' : Table) o :
  table_inv t -> apply t o = Some t' -> mIndex_ t <= mIndex_ t'.
Proof.
  intros Hinv Ha.
  assert (Hplace : forall (t1 t2 : Table) p,
             table_after (place hash_ kequal_ t1 p) = Some t2 -> mIndex_ t2 = mIndex_ t1).
  { intros t1 t2 p Hp. destruct (place hash_ kequal_ t1 p) as [t3|e t3|f] eqn:Hpl;
      cbn [table_after] in Hp; inversion Hp; subst t3.
    - apply place_done in Hpl. tauto.
    - apply place_raise in Hpl. subst. reflexivity. }
  assert (Hres : forall t1 : Table,
             table_after (resize t) = Some t1 -> mIndex_ t <= mIndex_ t1).
  { intros t1 Hr. destruct (resize t) as [t2|e t2|f] eqn:Hrz; cbn [table_after] in Hr;
      inversion Hr; subst t2.
    - apply resize_done in Hrz. destruct Hrz as (Hidx & _).
      destruct Hinv as (Hi & _). change CAPACITIES_SIZE with 28 in Hi.
      rewrite wrap64_small in Hidx by (rewrite two64_eq; lia). lia.
    - apply resize_raise in Hrz. subst. lia. }
  destruct o as [p|key|key|key|]; cbn [HashTable.apply] in Ha.
  - unfold HashTable.insert in Ha.
    destruct (load_reached (size t) (capacity t)).
    + destruct (resize t) as [t1|e t1|f] eqn:Hrz.
      * apply Hplace in Ha. rewrite Ha. apply Hres. try rewrite Hrz. reflexivity.
      * apply Hres. try rewrite Hrz. exact Ha.
      * discriminate.
    + apply Hplace in Ha. lia.
  - apply remove_after in Ha. lia.
  - destruct (find hash_ kequal_ t key); inversion Ha; subst; lia.
  - destruct (at_ hash_ kequal_ t key); inversion Ha; subst; lia.
  - apply Hres. exact Ha.
Qed.
End TableShape.

(** * More on the table: sequences of operations, size, reportAll *)

Section TableObservers.
Import HashTable.
Context {K V P : Type} `{ProberOps K P}.
Variable hash_ : K -> Z.
Variable kequal_ : K -> K -> bool.

Local Abbreviation slot := (option (@HashItem K V)).
Local Abbreviation Table := (@HashTable K V).
Local Abbreviation run := (run hash_ kequal_).
Local Abbreviation insert := (insert hash_ kequal_).

Lemma run_mIndex ops : forall t t' : Table,
  table_inv t -> run ops t = Some t' -> mIndex_ t <= mIndex_ t'.
Proof.
  induction ops as [|o ops IH]; intros t t' Hinv Hrun; cbn [HashTable.run] in Hrun.
  - inversion Hrun; subst. lia.
  - destruct (apply hash_ kequal_ t o) as [t1|] eqn:Ha; [|discriminate].
    pose proof (apply_mIndex hash_ kequal_ t t1 o Hinv Ha).
    pose proof (apply_inv hash_ kequal_ t t1 o Hinv Ha) as Hinv1.
    specialize (IH t1 t' Hinv1 Hrun). lia.
Qed.

Lemma live_count_le_length (l : list slot) : live_count l <= Z.of_nat (length l).
Proof.
  induction l as [|s l IH]; cbn [live_count length]; [lia|]. destruct (live s); lia.
Qed.

(** X7.  Along every sequence of public operations the capacity is an
    entry of the ladder and never decreases, the vector has exactly that
    many slots, and the Occupied count stays below the capacity. *)
Theorem run_keeps_capacity (ops : list (@operation K V)) (t t' : Table) :
  table_inv t -> run ops t = Some t' ->
  capacity t' ∈ CAPACITIES /\
  capacity t <= capacity t' /\
  length (table_ t') = Z.to_nat (capacity t') /\
  0 <= size t' < capacity t'.
Proof.
  intros Hinv Hrun.
  pose proof (run_mIndex ops t t' Hinv Hrun) as Hm.
  pose proof (run_inv hash_ kequal_ ops t t' Hinv Hrun) as (Hi' & Hlen' & Hload').
  destruct Hinv as (Hi & _ & _).
  pose proof (capacity_at_bounds (mIndex_ t') Hi') as Hb. fold (capacity t') in Hb.
  split; [apply capacity_at_in_ladder; exact Hi'|].
  split; [apply capacity_at_mono; lia|]. split; [exact Hlen'|].
  rewrite size_live_count in *. pose proof (live_count_nonneg (table_ t')). lia.
Qed.

(** X10.  Below the last capacity, an [insert] that returns leaves the
    table at the next capacity of the ladder if five times the Occupied
    count had reached twice the capacity (a ratio of 0.4 or more) when it
    was called, and at the same capacity otherwise. *)
Theorem insert_resize_policy (t t' : Table) (p : K * V) :
  table_inv t -> mIndex_ t + 1 < CAPACITIES_SIZE ->
  insert t p = Done t' ->
  mIndex_ t' = (if 2 * capacity t <=? 5 * size t then mIndex_ t + 1 else mIndex_ t).
Proof.
  intros Hinv Hlast Hins. unfold HashTable.insert, load_reached in Hins.
  destruct (2 * capacity t <=? 5 * size t).
  - destruct (HashTable.resize hash_ kequal_ t) as [t1|e t1|f] eqn:Hr; try discriminate.
    apply resize_done in Hr. destruct Hr as (Hidx & _).
    destruct Hinv as (Hi & _). change CAPACITIES_SIZE with 28 in Hi.
    rewrite wrap64_small in Hidx by (rewrite two64_eq; lia).
    apply place_done in Hins. destruct Hins as (Hm & _). lia.
  - apply place_done in Hins. tauto.
Qed.
End TableObservers.

(** * More on the table: the observers that scan the vector *)

Section TableScan.
Import HashTable.
Context {K V : Type}.

Local Abbreviation slot := (option (@HashItem K V)).
Local Abbreviation Table := (@HashTable K V).

Lemma empty_live_count (l : list slot) :
  forallb (fun s => negb (live s)) l = true <-> live_count l = 0.
Proof.
  induction l as [|s l IH]; cbn [forallb live_count]; [tauto|].
  pose proof (live_count_nonneg l). rewrite andb_true_iff, IH.
  destruct (live s); cbn [negb]; split; try lia; intros; try (split; [reflexivity|lia]).
Qed.

(** X8.  [empty()] answers true exactly when [size()] is 0. *)
Theorem empty_iff_size_0 (t : Table) : empty t = true <-> size t = 0.
Proof. unfold empty. rewrite size_live_count. apply empty_live_count. Qed.

Lemma reportAll_loop_occupied (rest : list slot) : forall pre : list slot,
  reportAll_loop (pre ++ rest) (length rest) (Z.of_nat (length pre)) =
  Ok (occupied_from (Z.of_nat (length pre)) rest).
Proof.
  induction rest as [|s rest IH]; intros pre; [reflexivity|].
  cbn [length reportAll_loop occupied_from].
  assert (Hg : vec_get (pre ++ s :: rest) (Z.of_nat (length pre)) = Some s).
  { unfold vec_get. destruct (Z.leb_spec 0 (Z.of_nat (length pre))); [|lia].
    rewrite Nat2Z.id. apply list_lookup_middle. reflexivity. }
  rewrite Hg.
  specialize (IH (pre ++ [s])). rewrite <- app_assoc in IH. cbn [app] in IH.
  rewrite length_app in IH. cbn [length] in IH.
  replace (Z.of_nat (length pre + 1)) with (Z.of_nat (length pre) + 1) in IH by lia.
  rewrite IH. destruct s as [it|]; [destruct (negb (deleted it))|]; reflexivity.
Qed.

Lemma occupied_from_length (l : list slot) : forall i,
  Z.of_nat (length (occupied_from i l)) = live_count l.
Proof.
  induction l as [|s l IH]; intros i; cbn [occupied_from live_count]; [reflexivity|].
  destruct s as [it|]; cbn [live]; [|rewrite IH; lia].
  destruct (negb (deleted it)); cbn [length]; rewrite <- (IH (i + 1)); lia.
Qed.

Lemma occupied_from_elem (l : list slot) : forall i0 i k v,
  (i, k, v) ∈ occupied_from i0 l <->
  i0 <= i /\ l !! Z.to_nat (i - i0) = Some (Some {| item := (k, v); deleted := false |}).
Proof.
  induction l as [|s l IH]; intros i0 i k v; cbn [occupied_from].
  - rewrite elem_of_nil, lookup_nil. split; [tauto|]. intros [_ Hx]. discriminate.
  - assert (Htail : (i, k, v) ∈ occupied_from (i0 + 1) l <->
                    i0 < i /\ (s :: l) !! Z.to_nat (i - i0) =
                              Some (Some {| item := (k, v); deleted := false |})).
    { rewrite IH. split.
      - intros (Hle & Hl). split; [lia|].
        replace (Z.to_nat (i - i0)) with (S (Z.to_nat (i - (i0 + 1)))) by lia. exact Hl.
      - intros (Hlt & Hl). split; [lia|].
        replace (Z.to_nat (i - i0)) with (S (Z.to_nat (i - (i0 + 1)))) in Hl by lia.
        exact Hl. }
    assert (Hskip : s <> Some {| item := (k, v); deleted := false |} ->
              (i0 < i /\ (s :: l) !! Z.to_nat (i - i0) =
                         Some (Some {| item := (k, v); deleted := false |})) <->
              (i0 <= i /\ (s :: l) !! Z.to_nat (i - i0) =
                          Some (Some {| item := (k, v); deleted := false |}))).
    { intros Hs. split; intros (Hle & Hl); (split; [|exact Hl]); try lia.
      destruct (Z.eq_dec i i0) as [->|]; [|lia].
      rewrite Z.sub_diag in Hl. simpl in Hl. congruence. }
    destruct s as [[[k' v'] d]|].
    + cbn [deleted item fst snd]. destruct d; cbn [negb].
      * rewrite Htail. apply Hskip. congruence.
      * rewrite elem_of_cons, Htail. split.
        -- intros [Heq|(Hlt & Hl)].
           ++ inversion Heq; subst. split; [lia|]. rewrite Z.sub_diag. reflexivity.
           ++ split; [lia|exact Hl].
        -- intros (Hle & Hl). destruct (Z.eq_dec i i0) as [->|].
           ++ left. rewrite Z.sub_diag in Hl. simpl in Hl. inversion Hl. reflexivity.
           ++ right. split; [lia|exact Hl].
    + rewrite Htail. apply Hskip. congruence.
Qed.

Lemma occupied_from_sorted (l : list slot) : forall i0,
  StronglySorted Z.lt (map (fun line => fst (fst line)) (occupied_from i0 l)).
Proof.
  induction l as [|s l IH]; intros i0; cbn [occupied_from]; [constructor|].
  destruct s as [it|]; [|apply IH].
  destruct (negb (deleted it)); [|apply IH].
  cbn [map fst]. constructor; [apply IH|].
  apply List.Forall_forall. intros i Hin. apply in_map_iff in Hin.
  destruct Hin as ([[i' k] v] & <- & Hin). cbn [fst].
  apply list_elem_of_In, occupied_from_elem in Hin. lia.
Qed.

(** X9.  On a table whose vector has the length of its capacity,
    [reportAll] writes one line for each Occupied slot and for nothing
    else, in the order of the slot indices: as many lines as [size()]
    counts, and a line for index [i], key [k] and value [v] exactly when
    slot [i] holds [(k, v)] and is not deleted. *)
Theorem reportAll_lists_occupied (t : Table) :
  length (table_ t) = Z.to_nat (capacity t) ->
  exists lines,
    reportAll t = Ok lines /\
    Z.of_nat (length lines) = size t /\
    (forall i k v,
       (i, k, v) ∈ lines <->
       vec_get (table_ t) i = Some (Some {| item := (k, v); deleted := false |})) /\
    StronglySorted Z.lt (map (fun line => fst (fst line)) lines).
Proof.
  intros Hlen. exists (occupied_from 0 (table_ t)).
  split.
  { unfold reportAll. rewrite <- Hlen.
    exact (reportAll_loop_occupied (table_ t) []). }
  split; [rewrite size_live_count; apply occupied_from_length|].
  split; [|apply occupied_from_sorted].
  intros i k v. rewrite occupied_from_elem. unfold vec_get.
  rewrite Z.sub_0_r. destruct (Z.leb_spec 0 i); split; try tauto; try lia.
  - intros Hx. discriminate.
Qed.
End TableScan.

(** * More on the table: the default prober *)

Section LinearTable.
Import HashTable.
Context {K V : Type}.
Variable hash_ : K -> Z.
Variable kequal_ : K -> K -> bool.

Local Abbreviation slot := (option (@HashItem K V)).
Local Abbreviation Table := (@HashTable K V).
Local Abbreviation probe := (@probe K V Prober _ hash_ kequal_).
Local Abbreviation find := (@find K V Prober _ hash_ kequal_).
Local Abbreviation at_ := (@at_ K V Prober _ hash_ kequal_).
Local Abbreviation insert := (@insert K V Prober _ hash_ kequal_).
Local Abbreviation place := (@place K V Prober _ hash_ kequal_).
Local Abbreviation resize := (@resize K V Prober _ hash_ kequal_).

(** When the loop of [probe] runs out of probes, every slot it looked at
    holds a key that is Occupied and not equal. *)
Lemma linear_probe_loop_npos (tbl : list slot) key start m (n : nat) : forall j,
  0 <= j -> j + Z.of_nat n = m -> m < two64 ->
  probe_loop kequal_ 0 tbl key (S n) {| start_ := start; m_ := m; numProbes_ := j |}
  = Ok npos ->
  forall i, j <= i < m ->
    exists s, vec_get tbl (wrap64 (start + i) mod m) = Some s /\
              HashTable.stops kequal_ s key = false.
Proof.
  induction n as [|n IH]; intros j Hj Hjn Hm Hp i Hi; [lia|].
  rewrite probe_loop_step in Hp.
  cbn [prober_next LinearProber.ops] in Hp. unfold LinearProber.next in Hp.
  cbn [m_ numProbes_ start_] in Hp.
  destruct (Z.leb_spec m j); [lia|]. cbn [fst snd] in Hp.
  pose proof (Z.mod_pos_bound (wrap64 (start + j)) m ltac:(lia)) as Hb.
  destruct (Z.eqb_spec (wrap64 (start + j) mod m) npos) as [Heq|_];
    [rewrite npos_eq in Heq; lia|].
  destruct (vec_get tbl (wrap64 (start + j) mod m)) as [s|] eqn:Hg; [|discriminate].
  destruct (HashTable.stops kequal_ s key) eqn:Hs.
  - inversion Hp as [Heq]. rewrite npos_eq in Heq. lia.
  - destruct (Z.eq_dec i j) as [->|Hne]; [eauto|].
    rewrite (wrap64_small (j + 1)) in Hp by lia.
    apply (IH (j + 1)); try lia. exact Hp.
Qed.

Lemma live_count_all_live (l : list slot) :
  Forall (fun s => live s = true) l -> live_count l = Z.of_nat (length l).
Proof.
  induction 1 as [|s l Hs _ IH]; cbn [live_count length]; [reflexivity|].
  rewrite Hs, IH. lia.
Qed.

(** On a table between operations [probe] finds a slot. *)
Lemma linear_probe_finds_slot (t : Table) key :
  table_inv t ->
  exists i s, probe t key = Ok i /\ i <> npos /\ vec_get (table_ t) i = Some s.
Proof.
  intros (Hi & Hlen & Hload).
  pose proof (capacity_at_bounds (mIndex_ t) Hi) as Hcap. fold (capacity t) in Hcap.
  set (m := capacity t) in *. set (h := hash_ key mod m).
  pose proof (Z.mod_pos_bound (hash_ key) m ltac:(lia)) as Hh. fold h in Hh.
  destruct (probe_loop_returns kequal_ (table_ t) key (S (Z.to_nat m))
              (LinearProber.init h m key)) as (loc & Hp & Hloc).
  { rewrite Hlen, Z2Nat.id by lia. apply linear_bounded; [lia|lia|rewrite two64_eq; lia]. }
  assert (Hprobe : probe t key = Ok loc) by exact Hp.
  destruct Hloc as [->|(Hne & s & Hs)]; [|eauto].
  exfalso.
  assert (Hall : Forall (fun s => live s = true) (table_ t)).
  { apply Forall_lookup. intros n s Hn.
    pose proof (lookup_lt_Some _ _ _ Hn) as Hlt.
    set (x := Z.of_nat n).
    destruct (linear_probe_loop_npos (table_ t) key h m (Z.to_nat m) 0
                ltac:(lia) ltac:(lia) ltac:(rewrite two64_eq; lia) Hp
                ((x - h) mod m)) as (s' & Hs' & Hstop).
    { pose proof (Z.mod_pos_bound (x - h) m ltac:(lia)). lia. }
    pose proof (Z.mod_pos_bound (x - h) m ltac:(lia)) as Hb.
    rewrite wrap64_small in Hs' by (rewrite two64_eq; lia).
    rewrite Zplus_mod_idemp_r in Hs'.
    replace (h + (x - h)) with x in Hs' by lia.
    rewrite Z.mod_small in Hs' by lia.
    unfold vec_get in Hs'. destruct (Z.leb_spec 0 x); [|lia].
    subst x. rewrite Nat2Z.id, Hn in Hs'. inversion Hs'; subst s'.
    destruct s as [it|]; cbn [HashTable.stops live] in *; [|discriminate].
    apply orb_false_iff in Hstop. destruct Hstop as [-> _]. reflexivity. }
  apply live_count_all_live in Hall.
  rewrite size_live_count, Hall, Hlen in Hload. lia.
Qed.

Lemma linear_place_done (t : Table) p :
  table_inv t -> exists t', place t p = Done t'.
Proof.
  intros Hinv.
  destruct (linear_probe_finds_slot t (fst p) Hinv) as (i & s & Hp & Hne & Hs).
  unfold HashTable.place.
  change (HashTable.probe hash_ kequal_ t (fst p)) with (probe t (fst p)).
  rewrite Hp. destruct (Z.eqb_spec i npos); [contradiction|]. rewrite Hs.
  destruct s as [it|]; eauto.
Qed.

(** X11.  With the default prober, on a table between operations, an
    [insert] that does not resize always returns normally, and the only
    exception [insert] ever throws is the one of [resize] at the last
    capacity, with the table left as it was: the error "No free location
    found" does not occur. *)
Theorem linear_insert_finds_slot (t : Table) (p : K * V) :
  table_inv t ->
  (load_reached (size t) (capacity t) = false -> exists t', insert t p = Done t') /\
  (forall e t', insert t p = Raise e t' ->
     e = logic_error "Maximum capacity reached, cannot resize further" /\
     t' = t /\ mIndex_ t = CAPACITIES_SIZE - 1).
Proof.
  intros Hinv. unfold HashTable.insert. split.
  - intros ->. apply linear_place_done. exact Hinv.
  - intros e t'. destruct (load_reached (size t) (capacity t)).
    + destruct (HashTable.resize hash_ kequal_ t) as [t1|e1 t1|f] eqn:Hr.
      * destruct (resize_inv hash_ kequal_ t t1 Hinv Hr) as (Hinv1 & _).
        destruct (linear_place_done t1 p Hinv1) as (t2 & Hp).
        change (HashTable.place hash_ kequal_ t1 p) with (place t1 p).
        rewrite Hp. discriminate.
      * intros Heq. inversion Heq; subst e1 t1.
        pose proof (resize_raise_last hash_ kequal_ t t' e Hr) as Hlast.
        pose proof (resize_raise hash_ kequal_ t t' e Hr) as ->.
        destruct Hinv as (Hi & _). change CAPACITIES_SIZE with 28 in *.
        rewrite wrap64_small in Hlast by (rewrite two64_eq; lia).
        split; [|split; [reflexivity|lia]].
        unfold HashTable.resize in Hr.
        rewrite wrap64_small in Hr by (rewrite two64_eq; lia).
        change CAPACITIES_SIZE with 28 in Hr.
        destruct (Z.leb_spec 28 (mIndex_ t + 1)); [|lia]. inversion Hr. reflexivity.
      * discriminate.
    + destruct (linear_place_done t p Hinv) as (t2 & Hp).
      change (HashTable.place hash_ kequal_ t p) with (place t p).
      rewrite Hp. discriminate.
Qed.

(** X12.  With the default prober, on a table between operations that
    holds no Occupied slot (a new table, or one whose keys were all
    removed), [find] returns null and [at] throws the key-not-found
    error for every key. *)
Theorem linear_find_on_empty (t : Table) (key : K) :
  table_inv t -> empty t = true ->
  find t key = Ok None /\ at_ t key = Throw (out_of_range "Key not found").
Proof.
  intros Hinv Hempty.
  destruct (find_returns_linear hash_ kequal_ t key Hinv) as (r & Hf).
  assert (Hr : r = None).
  { destruct r as [kv|]; [|reflexivity]. exfalso.
    destruct (find_some_probe hash_ kequal_ t key kv Hf)
      as (i & it & _ & _ & Hg & Hd & _).
    unfold empty in Hempty. rewrite forallb_forall in Hempty.
    unfold vec_get in Hg. destruct (0 <=? i); [|discriminate].
    apply list_elem_of_lookup_2, list_elem_of_In in Hg.
    specialize (Hempty _ Hg). cbn [live] in Hempty. rewrite Hd in Hempty.
    discriminate. }
  subst r. split; [exact Hf|]. unfold HashTable.at_.
  change (HashTable.find hash_ kequal_ t key) with (find t key). rewrite Hf. reflexivity.
Qed.
End LinearTable.

(** * More on the probers *)

Lemma probes_app {K P : Type} `{ProberOps K P} (a b : nat) (p : P) :
  probes (a + b) p =
  (fst (probes a p) ++ fst (probes b (snd (probes a p))),
   snd (probes b (snd (probes a p)))).
Proof.
  revert p. induction a as [|a IH]; intros p.
  - cbn [Nat.add probes fst snd app]. destruct (probes b p); reflexivity.
  - cbn [Nat.add probes]. destruct (prober_next p) as [loc p'].
    rewrite IH. destruct (probes a p') as [locs p'']. reflexivity.
Qed.

(** The probes of the linear prober, wrap-around included. *)
Lemma linear_probes_run_wrap {K : Type} start m (n : nat) : forall j,
  0 <= j -> j + Z.of_nat n <= m -> m < two64 ->
  probes (K:=K) n {| start_ := start; m_ := m; numProbes_ := j |} =
  ((fun i => wrap64 (start + i) mod m) <$> seqZ j (Z.of_nat n),
   {| start_ := start; m_ := m; numProbes_ := j + Z.of_nat n |}).
Proof.
  induction n as [|n IH]; intros j Hj Hjn Hm.
  - cbn. rewrite Z.add_0_r. reflexivity.
  - cbn [probes prober_next LinearProber.ops]. unfold LinearProber.next.
    cbn [m_ numProbes_ start_].
    destruct (Z.leb_spec m j) as [Hle|Hlt]; [lia|].
    rewrite (wrap64_small (j + 1)) by lia.
    rewrite (IH (j + 1)) by lia.
    rewrite (seqZ_cons j (Z.of_nat (S n))) by lia.
    cbn [fmap list_fmap].
    replace (Z.pred (Z.of_nat (S n))) with (Z.of_nat n) by lia.
    replace (Z.succ j) with (j + 1) by lia.
    replace (j + 1 + Z.of_nat n) with (j + Z.of_nat (S n)) by lia.
    reflexivity.
Qed.

(** X13.  For every start value and every capacity [m], the [i]-th call
    of [next] of a linear prober returns [((start + i) mod 2^64) mod m]
    for [i < m] and [npos] from the [m]-th call on; so every value it
    returns is [npos] or an index below [m]. *)
Theorem linear_next_in_bounds {K : Type} (key : K) (start m : Z) :
  0 <= m < two64 ->
  (forall n, Z.of_nat n <= m ->
     fst (probes (K:=K) n (LinearProber.init start m key)) =
     (fun i => wrap64 (start + i) mod m) <$> seqZ 0 (Z.of_nat n)) /\
  (forall n,
     fst (probes (K:=K) n
            (snd (probes (K:=K) (Z.to_nat m) (LinearProber.init start m key)))) =
     replicate n npos) /\
  (forall n,
     Forall (fun loc => loc = npos \/ 0 <= loc < m)
            (fst (probes (K:=K) n (LinearProber.init start m key)))).
Proof.
  intros Hm. unfold LinearProber.init, Prober_init.
  assert (Hrun : forall n, Z.of_nat n <= m ->
            probes (K:=K) n {| start_ := start; m_ := m; numProbes_ := 0 |} =
            ((fun i => wrap64 (start + i) mod m) <$> seqZ 0 (Z.of_nat n),
             {| start_ := start; m_ := m; numProbes_ := Z.of_nat n |})).
  { intros n Hn. rewrite (linear_probes_run_wrap start m n 0) by lia.
    rewrite Z.add_0_l. reflexivity. }
  assert (Hin : forall n, Z.of_nat n <= m ->
            Forall (fun loc => loc = npos \/ 0 <= loc < m)
                   ((fun i => wrap64 (start + i) mod m) <$> seqZ 0 (Z.of_nat n))).
  { intros n Hn. apply Forall_fmap, Forall_forall. intros i Hi%elem_of_seqZ.
    right. apply Z.mod_pos_bound. lia. }
  split; [intros n Hn; rewrite Hrun by exact Hn; reflexivity|].
  split.
  - intros n. rewrite Hrun by lia. cbn [snd]. rewrite Z2Nat.id by lia.
    rewrite linear_probes_exhausted. reflexivity.
  - intros n. destruct (Z.le_gt_cases (Z.of_nat n) m) as [Hn|Hn].
    + rewrite Hrun by exact Hn. apply Hin. exact Hn.
    + replace n with (Z.to_nat m + (n - Z.to_nat m))%nat by lia.
      rewrite probes_app. cbn [fst]. apply Forall_app. split.
      * rewrite Hrun by lia. apply Hin. lia.
      * rewrite Hrun by lia. cbn [snd]. rewrite Z2Nat.id by lia.
        rewrite linear_probes_exhausted. cbn [fst].
        apply Forall_replicate. left. reflexivity.
Qed.

Lemma linear_next_in_bounds_witness :
  (forall n, Z.of_nat n <= 3 ->
     fst (probes (K:=unit) n (LinearProber.init (two64 - 1) 3 tt)) =
     (fun i => wrap64 (two64 - 1 + i) mod 3) <$> seqZ 0 (Z.of_nat n)) /\
  (forall n,
     fst (probes (K:=unit) n
            (snd (probes (K:=unit) (Z.to_nat 3) (LinearProber.init (two64 - 1) 3 tt)))) =
     replicate n npos) /\
  (forall n,
     Forall (fun loc => loc = npos \/ 0 <= loc < 3)
            (fst (probes (K:=unit) n (LinearProber.init (two64 - 1) 3 tt)))).
Proof.
  apply (linear_next_in_bounds tt (two64 - 1) 3). vm_compute. split; [discriminate|reflexivity].
Defined.

Lemma prime_coprime_below p a : Z.prime p -> 0 < a < p -> Z.gcd a p = 1.
Proof.
  intros Hp Ha. rewrite Z.gcd_comm. apply (Z.coprime_prime_small p a Hp). lia.
Qed.

Lemma prime_11 : Z.prime 11.
Proof.
  split; [lia|]. intros n Hn [q Hq].
  assert (Hc : n = 2 \/ n = 3 \/ n = 4 \/ n = 5 \/ n = 6 \/ n = 7 \/
               n = 8 \/ n = 9 \/ n = 10) by lia.
  repeat (destruct Hc as [->|Hc]; [lia|]). subst n. lia.
Qed.

Section DoubleHashMore.
Context {K : Type} (h2_ : K -> Z).

(** What [init] sets up for a capacity above 7. *)
Lemma double_init_above_7 start m key :
  7 < m ->
  exists modulus,
    DoubleHashProber.init h2_ start m key =
      Some {| DoubleHashProber.base := Prober_init start m;
              DoubleHashProber.dhstep_ := modulus - h2_ key mod modulus |} /\
    modulus ∈ DoubleHashProber.DOUBLE_HASH_MOD_VALUES /\
    7 <= modulus < m /\
    1 <= modulus - h2_ key mod modulus <= modulus.
Proof.
  intros Hm.
  destruct (findModulus_above_7 m Hm) as (_ & modulus & Hmod & Hin & Hlt & Hmax).
  fold (DoubleHashProber.findModulusToUseFromTableSize m) in Hmod.
  assert (Hpos : 7 <= modulus).
  { apply Hmax; [|lia]. unfold DoubleHashProber.DOUBLE_HASH_MOD_VALUES.
    apply list_elem_of_here. }
  assert (Hmodmax : modulus <= 1685759113).
  { clear - Hin. unfold DoubleHashProber.DOUBLE_HASH_MOD_VALUES in Hin.
    repeat (apply elem_of_cons in Hin as [->|Hin]; [lia|]).
    apply elem_of_nil in Hin. contradiction. }
  pose proof (Z.mod_pos_bound (h2_ key) modulus ltac:(lia)) as Hh.
  exists modulus. split; [|repeat split; try assumption; lia].
  unfold DoubleHashProber.init. rewrite Hmod.
  rewrite wrap64_small by (rewrite two64_eq; lia). reflexivity.
Qed.

(** X14.  For a capacity above 7, [init] of the double-hash prober sets
    a step that is at least 1 and at most the modulus, which is a ladder
    value below the capacity: the step is never 0 and never reaches the
    capacity. *)
Theorem double_hash_step_bounds (key : K) (start m : Z) :
  7 < m ->
  exists modulus p,
    DoubleHashProber.init h2_ start m key = Some p /\
    DoubleHashProber.base p = Prober_init start m /\
    modulus ∈ DoubleHashProber.DOUBLE_HASH_MOD_VALUES /\
    1 <= DoubleHashProber.dhstep_ p <= modulus /\ modulus < m.
Proof.
  intros Hm.
  destruct (double_init_above_7 start m key Hm) as (modulus & Hinit & Hin & Hb & Hstep).
  exists modulus. eexists. split; [exact Hinit|].
  cbn [DoubleHashProber.base DoubleHashProber.dhstep_].
  repeat split; try assumption; lia.
Qed.

(** X15.  On a prime capacity [m] above 7 and up to [2^32], with a start
    index inside the table, the first [m] probes of the double-hash
    prober visit every index of the table exactly once, whatever the
    key, and every later call returns [npos]. *)
Theorem double_hash_covers_prime_capacity (key : K) (start m : Z) :
  Z.prime m -> 7 < m <= 2 ^ 32 -> 0 <= start < m ->
  exists p,
    DoubleHashProber.init h2_ start m key = Some p /\
    fst (@probes K _ (DoubleHashProber.ops h2_) (Z.to_nat m) p) ≡ₚ seqZ 0 m /\
    forall n,
      fst (@probes K _ (DoubleHashProber.ops h2_) n
             (snd (@probes K _ (DoubleHashProber.ops h2_) (Z.to_nat m) p))) =
      replicate n npos.
Proof.
  intros Hp Hm Hs.
  destruct (double_init_above_7 start m key ltac:(lia)) as (modulus & Hinit & Hin & Hb & Hstep).
  set (step := modulus - h2_ key mod modulus) in *.
  assert (Hmodmax : modulus <= 1685759113).
  { clear - Hin. unfold DoubleHashProber.DOUBLE_HASH_MOD_VALUES in Hin.
    repeat (apply elem_of_cons in Hin as [->|Hin]; [lia|]).
    apply elem_of_nil in Hin. contradiction. }
  eexists. split; [exact Hinit|]. unfold Prober_init.
  assert (Hwrap : start + (m - 1) * step < two64) by (rewrite two64_eq; nia).
  assert (Hm64 : m < two64) by (rewrite two64_eq; lia).
  rewrite (double_probes_run h2_ start m step (Z.to_nat m) 0) by lia.
  rewrite Z2Nat.id by lia. cbn [fst snd]. split.
  - apply (residues_permutation (fun i => start + i * step) m); [lia|].
    intros i j Hi Hj Heq. apply (affine_mod_inj start step m); try lia.
    apply prime_coprime_below; [exact Hp|lia].
  - intros n. rewrite Z.add_0_l, double_probes_exhausted. reflexivity.
Qed.
End DoubleHashMore.

Lemma double_hash_step_bounds_witness :
  exists modulus p,
    DoubleHashProber.init MyStringHash.hash 3 11 "b" = Some p /\
    DoubleHashProber.base p = Prober_init 3 11 /\
    modulus ∈ DoubleHashProber.DOUBLE_HASH_MOD_VALUES /\
    1 <= DoubleHashProber.dhstep_ p <= modulus /\ modulus < 11.
Proof.
  apply (double_hash_step_bounds MyStringHash.hash "b" 3 11). lia.
Defined.

Lemma double_hash_covers_prime_capacity_witness :
  exists p,
    DoubleHashProber.init MyStringHash.hash 3 11 "b" = Some p /\
    fst (@probes string _ (DoubleHashProber.ops MyStringHash.hash) (Z.to_nat 11) p) ≡ₚ
      seqZ 0 11 /\
    forall n,
      fst (@probes string _ (DoubleHashProber.ops MyStringHash.hash) n
             (snd (@probes string _ (DoubleHashProber.ops MyStringHash.hash)
                     (Z.to_nat 11) p))) =
      replicate n npos.
Proof.
  apply (double_hash_covers_prime_capacity MyStringHash.hash "b" 3 11);
    [exact prime_11 | lia | lia].
Defined.

(** * More on MyStringHash *)

Lemma char_code_range c : 0 <= MyStringHash.char_code c < 256.
Proof.
  unfold MyStringHash.char_code.
  destruct c as [[] [] [] [] [] [] [] []]; vm_compute; split; congruence.
Qed.

Lemma letterDigitToNumber_lower c :
  MyStringHash.letterDigitToNumber (MyStringHash.lower_char c) =
  MyStringHash.letterDigitToNumber c.
Proof. destruct c as [[] [] [] [] [] [] [] []]; vm_compute; reflexivity. Qed.

(** X16.  [letterDigitToNumber] sends the digits '0'..'9' to 26..35 and
    the letters to 0..25, a capital letter to the value of its small
    letter. *)
Theorem letterDigitToNumber_values (c : ascii) :
  (48 <= MyStringHash.char_code c <= 57 ->
   MyStringHash.letterDigitToNumber c = 26 + (MyStringHash.char_code c - 48)) /\
  (97 <= MyStringHash.char_code c <= 122 ->
   MyStringHash.letterDigitToNumber c = MyStringHash.char_code c - 97) /\
  (65 <= MyStringHash.char_code c <= 90 ->
   MyStringHash.letterDigitToNumber c = MyStringHash.char_code c - 65) /\
  MyStringHash.letterDigitToNumber (MyStringHash.lower_char c) =
  MyStringHash.letterDigitToNumber c.
Proof.
  split; [|split; [|split; [|apply letterDigitToNumber_lower]]];
    intros Hc; unfold MyStringHash.letterDigitToNumber, MyStringHash.isdigit,
                 MyStringHash.tolower;
    destruct (Z.leb_spec 48 (MyStringHash.char_code c));
    destruct (Z.leb_spec (MyStringHash.char_code c) 57);
    destruct (Z.leb_spec 65 (MyStringHash.char_code c));
    destruct (Z.leb_spec (MyStringHash.char_code c) 90);
    cbn [andb]; try lia; rewrite wrap64_small by (rewrite two64_eq; lia); lia.
Qed.

(** The loops of the hash read a key through its length and the digits
    of its characters only. *)
Lemma substring_loop_ext k1 k2 (n : nat) : forall i value base,
  MyStringHash.str_length k1 = MyStringHash.str_length k2 ->
  (forall i', 0 <= i' <= i ->
     option_map MyStringHash.letterDigitToNumber (MyStringHash.char_at k1 i') =
     option_map MyStringHash.letterDigitToNumber (MyStringHash.char_at k2 i')) ->
  MyStringHash.substring_loop k1 n i value base =
  MyStringHash.substring_loop k2 n i value base.
Proof.
  induction n as [|n IH]; intros i value base Hlen Hch; [reflexivity|].
  cbn [MyStringHash.substring_loop]. rewrite <- Hlen.
  assert (Hstep : (if (0 <=? i) && (i <? MyStringHash.str_length k1)
                   then match MyStringHash.char_at k1 i with
                        | Some c => wrap64 (value + wrap64 (MyStringHash.letterDigitToNumber c * base))
                        | None => value
                        end
                   else value) =
                  (if (0 <=? i) && (i <? MyStringHash.str_length k1)
                   then match MyStringHash.char_at k2 i with
                        | Some c => wrap64 (value + wrap64 (MyStringHash.letterDigitToNumber c * base))
                        | None => value
                        end
                   else value)).
  { destruct (Z.leb_spec 0 i); [|reflexivity].
    destruct (i <? MyStringHash.str_length k1); [|reflexivity]. cbn [andb].
    specialize (Hch i ltac:(lia)).
    destruct (MyStringHash.char_at k1 i), (MyStringHash.char_at k2 i);
      cbn [option_map] in Hch; try discriminate; [|reflexivity].
    inversion Hch as [Heq]. rewrite Heq. reflexivity. }
  rewrite Hstep. apply IH; [exact Hlen|]. intros i' Hi'. apply Hch. lia.
Qed.

Lemma computeSubstringValue_ext k1 k2 start end_ :
  MyStringHash.str_length k1 = MyStringHash.str_length k2 ->
  (forall i, 0 <= i < end_ ->
     option_map MyStringHash.letterDigitToNumber (MyStringHash.char_at k1 i) =
     option_map MyStringHash.letterDigitToNumber (MyStringHash.char_at k2 i)) ->
  MyStringHash.computeSubstringValue k1 start end_ =
  MyStringHash.computeSubstringValue k2 start end_.
Proof.
  intros Hlen Hch. unfold MyStringHash.computeSubstringValue.
  apply substring_loop_ext; [exact Hlen|]. intros i Hi. apply Hch. lia.
Qed.

Lemma fill_w_ext k1 k2 (n : nat) : forall pos acc,
  MyStringHash.str_length k1 = MyStringHash.str_length k2 ->
  (forall i, 0 <= i < pos ->
     option_map MyStringHash.letterDigitToNumber (MyStringHash.char_at k1 i) =
     option_map MyStringHash.letterDigitToNumber (MyStringHash.char_at k2 i)) ->
  - 2 ^ 30 + 6 * Z.of_nat n <= pos <= 6 ->
  MyStringHash.fill_w k1 n pos acc = MyStringHash.fill_w k2 n pos acc.
Proof.
  induction n as [|n IH]; intros pos acc Hlen Hch Hpos; [reflexivity|].
  cbn [MyStringHash.fill_w].
  rewrite (computeSubstringValue_ext k1 k2 _ pos Hlen Hch).
  rewrite (wrap_int_small (pos - 6)) by lia.
  apply IH; [exact Hlen| |lia]. intros i Hi. apply Hch. lia.
Qed.

Lemma lower_key_length k :
  MyStringHash.str_length (MyStringHash.lower_key k) = MyStringHash.str_length k.
Proof.
  unfold MyStringHash.str_length. f_equal.
  induction k as [|c k IH]; cbn [MyStringHash.lower_key String.length]; congruence.
Qed.

Lemma lower_key_get k : forall n,
  String.get n (MyStringHash.lower_key k) =
  option_map MyStringHash.lower_char (String.get n k).
Proof.
  induction k as [|c k IH]; intros n; cbn [MyStringHash.lower_key String.get];
    [reflexivity|].
  destruct n as [|n]; [reflexivity|apply IH].
Qed.

Lemma lower_key_digits k i :
  option_map MyStringHash.letterDigitToNumber
    (MyStringHash.char_at (MyStringHash.lower_key k) i) =
  option_map MyStringHash.letterDigitToNumber (MyStringHash.char_at k i).
Proof.
  unfold MyStringHash.char_at. destruct (0 <=? i); [|reflexivity].
  rewrite lower_key_get. destruct (String.get (Z.to_nat i) k); [|reflexivity].
  cbn [option_map]. rewrite letterDigitToNumber_lower. reflexivity.
Qed.

(** X17.  The hash does not see the case of letters: a key and the key
    with its capital letters made small have the same hash value. *)
Theorem hash_case_insensitive (k : string) :
  MyStringHash.hash (MyStringHash.lower_key k) = MyStringHash.hash k.
Proof.
  unfold MyStringHash.hash. rewrite lower_key_length.
  set (pos := Z.rem (wrap_int (MyStringHash.str_length k)) 6).
  assert (Hpos : -6 < pos < 6).
  { subst pos. pose proof (Z.rem_bound_abs (wrap_int (MyStringHash.str_length k)) 6
                             ltac:(lia)). lia. }
  rewrite (fill_w_ext (MyStringHash.lower_key k) k 5 pos []); [reflexivity| | |lia].
  - apply lower_key_length.
  - intros i _. apply lower_key_digits.
Qed.

(** X18.  Two keys of the same length (below [2^31]) that agree on their
    first [len % 6] characters have the same hash value, whatever the
    rest of them is. *)
Theorem hash_depends_on_first_group (k1 k2 : string) :
  MyStringHash.str_length k1 = MyStringHash.str_length k2 ->
  MyStringHash.str_length k1 < 2 ^ 31 ->
  (forall i, 0 <= i < MyStringHash.str_length k1 mod 6 ->
     MyStringHash.char_at k1 i = MyStringHash.char_at k2 i) ->
  MyStringHash.hash k1 = MyStringHash.hash k2.
Proof.
  intros Hlen Hsmall Hch. unfold MyStringHash.hash. rewrite <- Hlen.
  assert (H0 : 0 <= MyStringHash.str_length k1)
    by (unfold MyStringHash.str_length; lia).
  rewrite (wrap_int_small (MyStringHash.str_length k1)) by lia.
  rewrite Z.rem_mod_nonneg by lia.
  pose proof (Z.mod_pos_bound (MyStringHash.str_length k1) 6 ltac:(lia)) as Hr.
  rewrite (fill_w_ext k1 k2 5 _ [] Hlen); [reflexivity| |lia].
  intros i Hi. rewrite (Hch i Hi). reflexivity.
Qed.

Lemma hash_depends_on_first_group_witness :
  MyStringHash.hash "key-number-one" = MyStringHash.hash "ke0123456789ab".
Proof.
  apply (hash_depends_on_first_group "key-number-one" "ke0123456789ab");
    [reflexivity | vm_compute; reflexivity |].
  intros i Hi. change (MyStringHash.str_length "key-number-one" mod 6) with 2 in Hi.
  assert (Hc : i = 0 \/ i = 1) by lia. destruct Hc as [->| ->]; reflexivity.
Defined.

(** X19.  Every key whose length is a multiple of 6 (and below [2^31])
    has the hash value 0. *)
Theorem hash_zero_on_multiple_of_6 (k : string) :
  MyStringHash.str_length k < 2 ^ 31 ->
  MyStringHash.str_length k mod 6 = 0 ->
  MyStringHash.hash k = 0.
Proof.
  intros Hsmall Hr. rewrite (hash_reads_first_group k Hsmall), Hr.
  rewrite computeSubstringValue_negative by lia. reflexivity.
Qed.

Lemma hash_zero_on_multiple_of_6_witness :
  MyStringHash.hash "hash table!!" = 0.
Proof.
  apply (hash_zero_on_multiple_of_6 "hash table!!"); vm_compute; reflexivity.
Defined.

(** * computeSubstringValue as a base-36 number *)

Lemma base36_snoc ds : forall acc d,
  MyStringHash.base36 acc (ds ++ [d]) = MyStringHash.base36 acc ds * 36 + d.
Proof.
  induction ds as [|x ds IH]; intros acc d; cbn [app MyStringHash.base36];
    [reflexivity|apply IH].
Qed.

Lemma char_at_in_range k i :
  0 <= i < MyStringHash.str_length k -> exists c, MyStringHash.char_at k i = Some c.
Proof.
  unfold MyStringHash.char_at, MyStringHash.str_length. intros Hi.
  destruct (Z.leb_spec 0 i); [|lia].
  assert (Hn : (Z.to_nat i < String.length k)%nat) by lia.
  revert Hn. generalize (Z.to_nat i). clear.
  induction k as [|c k IH]; intros n Hn; cbn [String.length] in Hn; [lia|].
  destruct n as [|n]; cbn [String.get]; [eauto|]. apply IH. lia.
Qed.

Lemma digits_from_snoc k (n : nat) : forall start c,
  MyStringHash.char_at k (start + Z.of_nat n) = Some c ->
  MyStringHash.digits_from k start (S n) =
  MyStringHash.digits_from k start n ++ [MyStringHash.letterDigitToNumber c].
Proof.
  induction n as [|n IH]; intros start c Hc.
  - cbn [MyStringHash.digits_from]. rewrite Z.add_0_r in Hc. rewrite Hc. reflexivity.
  - cbn [MyStringHash.digits_from] in *.
    replace (start + Z.of_nat (S n)) with (start + 1 + Z.of_nat n) in Hc by lia.
    specialize (IH (start + 1) c Hc).
    destruct (MyStringHash.char_at k start); [rewrite IH; reflexivity|exact IH].
Qed.

Lemma substring_loop_base36 k (n : nat) : forall start value base,
  0 <= start -> start + Z.of_nat n <= MyStringHash.str_length k ->
  0 <= value < two64 ->
  MyStringHash.substring_loop k n (start + Z.of_nat n - 1) value base =
  wrap64 (value + base * MyStringHash.base36 0 (MyStringHash.digits_from k start n)).
Proof.
  induction n as [|n IH]; intros start value base Hs Hlen Hv.
  - cbn [MyStringHash.substring_loop MyStringHash.digits_from MyStringHash.base36].
    rewrite Z.mul_0_r, Z.add_0_r. symmetry. apply wrap64_small. exact Hv.
  - cbn [MyStringHash.substring_loop].
    replace (start + Z.of_nat (S n) - 1) with (start + Z.of_nat n) by lia.
    destruct (Z.leb_spec 0 (start + Z.of_nat n)); [|lia].
    destruct (Z.ltb_spec (start + Z.of_nat n) (MyStringHash.str_length k)); [|lia].
    cbn [andb].
    destruct (char_at_in_range k (start + Z.of_nat n) ltac:(lia)) as (c & Hc).
    rewrite Hc, (digits_from_snoc k n start c Hc), base36_snoc.
    rewrite IH; [|lia|lia|apply Z.mod_pos_bound; rewrite two64_eq; lia].
    set (d := MyStringHash.letterDigitToNumber c).
    set (X := MyStringHash.base36 0 (MyStringHash.digits_from k start n)).
    unfold wrap64.
    assert (HM : two64 <> 0) by (rewrite two64_eq; lia).
    rewrite (Z.mod_eq (d * base) two64 HM), (Z.mod_eq (base * 36) two64 HM).
    set (q1 := d * base / two64). set (q2 := base * 36 / two64).
    rewrite Zplus_mod_idemp_l.
    replace (value + (d * base - two64 * q1) + (base * 36 - two64 * q2) * X)
      with (value + base * (X * 36 + d) + (- q1 - q2 * X) * two64) by ring.
    apply Z_mod_plus_full.
Qed.

(** X20.  For a group that lies inside the key, [computeSubstringValue]
    is the base-36 number whose digits are the digits of the characters
    at [start .. end - 1], most significant first, reduced to 64 bits. *)
Theorem computeSubstringValue_base36 (k : string) (start end_ : Z) :
  0 <= start -> start <= end_ -> end_ <= MyStringHash.str_length k ->
  MyStringHash.computeSubstringValue k start end_ =
  wrap64 (MyStringHash.base36 0
            (MyStringHash.digits_from k start (Z.to_nat (end_ - start)))) /\
  length (MyStringHash.digits_from k start (Z.to_nat (end_ - start))) =
  Z.to_nat (end_ - start).
Proof.
  intros Hs Hse He. split.
  - unfold MyStringHash.computeSubstringValue.
    replace (end_ - 1) with (start + Z.of_nat (Z.to_nat (end_ - start)) - 1) by lia.
    rewrite substring_loop_base36; [|lia|lia|rewrite two64_eq; lia].
    rewrite Z.add_0_l, Z.mul_1_l. reflexivity.
  - assert (Hn : start + Z.of_nat (Z.to_nat (end_ - start)) <= MyStringHash.str_length k)
      by lia.
    revert Hs Hn. generalize (Z.to_nat (end_ - start)). clear. intros n. revert start.
    induction n as [|n IH]; intros start Hs Hn; [reflexivity|].
    cbn [MyStringHash.digits_from].
    destruct (char_at_in_range k start ltac:(lia)) as (c & ->).
    cbn [length]. rewrite IH by lia. reflexivity.
Qed.

Lemma computeSubstringValue_base36_witness :
  MyStringHash.computeSubstringValue "abc123" 0 6 =
  wrap64 (MyStringHash.base36 0
            (MyStringHash.digits_from "abc123" 0 (Z.to_nat (6 - 0)))) /\
  length (MyStringHash.digits_from "abc123" 0 (Z.to_nat (6 - 0))) = Z.to_nat (6 - 0).
Proof.
  apply (computeSubstringValue_base36 "abc123" 0 6); [lia | lia | vm_compute; discriminate].
Defined.

(** The digits of ["abc123"] are 0, 1, 2, 27, 28, 29. *)
Example computeSubstringValue_abc123 :
  MyStringHash.digits_from "abc123" 0 6 = [0; 1; 2; 27; 28; 29] /\
  MyStringHash.computeSubstringValue "abc123" 0 6 =
  ((((0 * 36 + 1) * 36 + 2) * 36 + 27) * 36 + 28) * 36 + 29.
Proof. vm_compute. split; reflexivity. Qed.

(** * The properties above on the table of strings *)

Lemma after_inv ops : HashTable.table_inv (StringTable.after ops).
Proof.
  unfold StringTable.after, StringTable.run.
  destruct (HashTable.run MyStringHash.hash String.eqb ops
              (HashTable.new HashTable.default_alpha)) as [t|] eqn:Hrun.
  - exact (run_inv MyStringHash.hash String.eqb ops _ t
             (new_inv HashTable.default_alpha) Hrun).
  - apply new_inv.
Qed.

Lemma remove_then_find_witness :
  exists t' : StringTable.table,
    StringTable.remove StringTable.table_ab "a" = HashTable.Done t' /\
    (StringTable.find t' "a" = Ok None /\
     StringTable.at_ t' "a" = Throw (out_of_range "Key not found") /\
     HashTable.mIndex_ t' = HashTable.mIndex_ StringTable.table_ab /\
     HashTable.size t' =
       HashTable.size StringTable.table_ab -
       match StringTable.find StringTable.table_ab "a" with
       | Ok (Some _) => 1
       | _ => 0
       end).
Proof.
  eexists.
  eassert (Hr : StringTable.remove StringTable.table_ab "a" = HashTable.Done _)
    by (vm_compute; reflexivity).
  split; [exact Hr|].
  exact (remove_then_find MyStringHash.hash String.eqb _ _ "a" Hr).
Defined.

Lemma insert_present_key_witness :
  exists t',
    StringTable.insert StringTable.table_ab ("a", 5) = HashTable.Done t' /\
    StringTable.find t' "a" = Ok (Some (fst ("a", 1), 5)) /\
    HashTable.size t' = HashTable.size StringTable.table_ab /\
    HashTable.mIndex_ t' = HashTable.mIndex_ StringTable.table_ab.
Proof.
  apply (insert_present_key MyStringHash.hash String.eqb StringTable.table_ab "a" 5 ("a", 1));
    vm_compute; reflexivity.
Defined.

Lemma insert_keeps_other_keys_witness :
  exists t' : StringTable.table,
    StringTable.insert StringTable.table_ab ("l", 3) = HashTable.Done t' /\
    StringTable.find t' "a" = Ok (Some ("a", 1)).
Proof.
  eexists.
  eassert (Hi : StringTable.insert StringTable.table_ab ("l", 3) = HashTable.Done _)
    by (vm_compute; reflexivity).
  split; [exact Hi|].
  apply (insert_keeps_other_keys MyStringHash.hash String.eqb StringTable.table_ab _
           "l" "a" 3 ("a", 1)).
  - vm_compute. reflexivity.
  - intros x Hx. apply String.eqb_eq in Hx. subst x. reflexivity.
  - exact Hi.
  - vm_compute. reflexivity.
Defined.

Lemma insert_then_at_witness :
  exists t' : StringTable.table,
    StringTable.insert StringTable.table_ab ("l", 3) = HashTable.Done t' /\
    (StringTable.at_ t' "l" = Ok 3 /\
     (exists k0, StringTable.find t' "l" = Ok (Some (k0, 3)) /\ String.eqb k0 "l" = true) /\
     HashTable.size t' =
       HashTable.size StringTable.table_ab +
       match StringTable.find StringTable.table_ab "l" with
       | Ok (Some _) => 0
       | _ => 1
       end /\
     HashTable.mIndex_ t' = HashTable.mIndex_ StringTable.table_ab).
Proof.
  eexists.
  eassert (Hi : StringTable.insert StringTable.table_ab ("l", 3) = HashTable.Done _)
    by (vm_compute; reflexivity).
  split; [exact Hi|].
  apply (insert_then_at MyStringHash.hash String.eqb StringTable.table_ab _ "l" 3);
    [vm_compute; reflexivity | vm_compute; reflexivity | reflexivity | exact Hi].
Defined.

Lemma resize_postconditions_witness :
  exists t' : StringTable.table,
    StringTable.resize StringTable.table_ab = HashTable.Done t' /\
    (HashTable.mIndex_ t' = HashTable.mIndex_ StringTable.table_ab + 1 /\
     length (HashTable.table_ t') =
       Z.to_nat (HashTable.capacity_at (HashTable.mIndex_ StringTable.table_ab + 1)) /\
     Forall (fun s => s = None \/
                      (HashTable.live s = true /\
                       s ∈ HashTable.table_ StringTable.table_ab))
            (HashTable.table_ t') /\
     HashTable.no_tombstones t' = true /\
     HashTable.size t' <= HashTable.size StringTable.table_ab /\
     5 * HashTable.size t' < 2 * HashTable.capacity t').
Proof.
  eexists.
  eassert (Hr : StringTable.resize StringTable.table_ab = HashTable.Done _)
    by (vm_compute; reflexivity).
  split; [exact Hr|].
  exact (resize_postconditions MyStringHash.hash String.eqb StringTable.table_ab _
           (after_inv _) Hr).
Defined.


Lemma run_keeps_capacity_witness :
  exists t' : StringTable.table,
    StringTable.run [HashTable.Insert ("f", 6); HashTable.Remove "a"]
      StringTable.table_abcde = Some t' /\
    (HashTable.capacity t' ∈ HashTable.CAPACITIES /\
     HashTable.capacity StringTable.table_abcde <= HashTable.capacity t' /\
     length (HashTable.table_ t') = Z.to_nat (HashTable.capacity t') /\
     0 <= HashTable.size t' < HashTable.capacity t').
Proof.
  eexists.
  eassert (Hrun : StringTable.run [HashTable.Insert ("f", 6); HashTable.Remove "a"]
                    StringTable.table_abcde = Some _) by (vm_compute; reflexivity).
  split; [exact Hrun|].
  exact (run_keeps_capacity MyStringHash.hash String.eqb _ StringTable.table_abcde _
           (after_inv _) Hrun).
Defined.

Lemma reportAll_lists_occupied_witness :
  exists lines,
    StringTable.reportAll StringTable.table_ab = Ok lines /\
    Z.of_nat (length lines) = HashTable.size StringTable.table_ab /\
    (forall i k v,
       (i, k, v) ∈ lines <->
       vec_get (HashTable.table_ StringTable.table_ab) i =
       Some (Some {| HashTable.item := (k, v); HashTable.deleted := false |})) /\
    StronglySorted Z.lt (map (fun line => fst (fst line)) lines).
Proof.
  apply (reportAll_lists_occupied StringTable.table_ab). vm_compute. reflexivity.
Defined.

(** What [reportAll] prints for that table. *)
Example reportAll_table_ab :
  StringTable.reportAll StringTable.table_ab = Ok [(0, "a", 1); (1, "b", 2)].
Proof. vm_compute. reflexivity. Qed.

Lemma insert_resize_policy_witness :
  exists t' : StringTable.table,
    StringTable.insert StringTable.table_abcde ("f", 6) = HashTable.Done t' /\
    HashTable.mIndex_ t' =
    (if 2 * HashTable.capacity StringTable.table_abcde <=?
        5 * HashTable.size StringTable.table_abcde
     then HashTable.mIndex_ StringTable.table_abcde + 1
     else HashTable.mIndex_ StringTable.table_abcde).
Proof.
  eexists.
  eassert (Hi : StringTable.insert StringTable.table_abcde ("f", 6) = HashTable.Done _)
    by (vm_compute; reflexivity).
  split; [exact Hi|].
  apply (insert_resize_policy MyStringHash.hash String.eqb StringTable.table_abcde _ ("f", 6));
    [apply after_inv | vm_compute; reflexivity | exact Hi].
Defined.

Lemma linear_insert_finds_slot_witness :
  (HashTable.load_reached (HashTable.size StringTable.table_ab)
     (HashTable.capacity StringTable.table_ab) = false ->
   exists t', StringTable.insert StringTable.table_ab ("l", 3) = HashTable.Done t') /\
  (forall e t', StringTable.insert StringTable.table_ab ("l", 3) = HashTable.Raise e t' ->
     e = logic_error "Maximum capacity reached, cannot resize further" /\
     t' = StringTable.table_ab /\
     HashTable.mIndex_ StringTable.table_ab = HashTable.CAPACITIES_SIZE - 1).
Proof.
  apply (linear_insert_finds_slot MyStringHash.hash String.eqb StringTable.table_ab ("l", 3)).
  apply after_inv.
Defined.

Lemma linear_find_on_empty_witness :
  StringTable.find (StringTable.after []) "cat" = Ok None /\
  StringTable.at_ (StringTable.after []) "cat" = Throw (out_of_range "Key not found").
Proof.
  apply (linear_find_on_empty MyStringHash.hash String.eqb (StringTable.after []) "cat");
    [apply after_inv | vm_compute; reflexivity].
Defined.

(** * More on the table: removing and inserting again *)

Section TableReinsert.
Import HashTable.
Context {K V P : Type} `{ProberOps K P}.
Variable hash_ : K -> Z.
Variable kequal_ : K -> K -> bool.

Local Abbreviation Table := (@HashTable K V).
Local Abbreviation stops := (@stops K V kequal_).
Local Abbreviation probe := (probe hash_ kequal_).
Local Abbreviation find := (find hash_ kequal_).
Local Abbreviation insert := (insert hash_ kequal_).
Local Abbreviation remove := (remove hash_ kequal_).

Lemma vec_set_same {A : Type} (l : list A) i x :
  vec_get l i = Some x -> vec_set l i x = l.
Proof.
  unfold vec_get, vec_set. destruct (0 <=? i); [|discriminate]. apply list_insert_id.
Qed.

(** X21.  [remove] of a key that [find] does not find returns and leaves
    the table exactly as it was. *)
Theorem remove_absent_is_noop (t : Table) (key : K) :
  find t key = Ok None -> remove t key = Done t.
Proof.
  unfold HashTable.find, HashTable.remove.
  destruct (probe t key) as [i|e|f]; try discriminate.
  destruct (Z.eqb_spec i npos); [reflexivity|]. cbn [negb].
  destruct (vec_get (table_ t) i) as [[it|]|] eqn:Hg; try discriminate; [|reflexivity].
  destruct (deleted it) eqn:Hd; [|discriminate]. intros _.
  assert (Hit : {| item := item it; deleted := true |} = it)
    by (destruct it; cbn in *; congruence).
  rewrite Hit, (vec_set_same _ _ _ Hg). destruct t; reflexivity.
Qed.

(** X22.  A key that [find] finds, removed and then inserted again by an
    [insert] that does not resize, is found again in its old slot: with
    the stored key, the new value, and the Occupied count of before the
    removal. *)
Theorem reinsert_after_remove (t t1 : Table) (key : K) (v : V) (kv : K * V) :
  find t key = Ok (Some kv) ->
  remove t key = Done t1 ->
  load_reached (size t1) (capacity t1) = false ->
  exists t2,
    insert t1 (key, v) = Done t2 /\
    find t2 key = Ok (Some (fst kv, v)) /\
    size t2 = size t /\ mIndex_ t2 = mIndex_ t.
Proof.
  intros Hf Hr Hload.
  destruct (find_some_probe hash_ kequal_ t key kv Hf)
    as (i & it & Hp & Hi & Hg & Hd & Hit & Heq).
  unfold HashTable.remove in Hr. rewrite Hp in Hr.
  destruct (Z.eqb_spec i npos); [contradiction|]. cbn [negb] in Hr.
  rewrite Hg in Hr. inversion Hr; subst t1; clear Hr.
  set (dead := Some {| item := item it; deleted := true |}) in *.
  set (t1 := {| table_ := vec_set (table_ t) i dead; mIndex_ := mIndex_ t |}) in *.
  assert (Hp1 : probe t1 key = Ok i)
    by (apply probe_set_same; [exact Hp|exact Hi|reflexivity]).
  assert (Hg1 : vec_get (table_ t1) i = Some dead)
    by (exact (vec_get_set_eq _ _ _ _ Hg)).
  unfold HashTable.insert. rewrite Hload. unfold HashTable.place. cbn [fst snd].
  rewrite Hp1. destruct (Z.eqb_spec i npos); [contradiction|]. rewrite Hg1.
  subst dead. cbn [item].
  eexists. split; [reflexivity|].
  set (x := Some {| item := (fst (item it), v); deleted := false |}).
  assert (Hx : stops x key = true).
  { subst x. cbn [HashTable.stops deleted item fst orb]. rewrite Hit. exact Heq. }
  pose proof (probe_set_same hash_ kequal_ t1 key i x Hp1 Hi Hx) as Hp2.
  cbn [mIndex_] in Hp2 |- *.
  split; [|split; [|reflexivity]].
  - rewrite (find_of_probe hash_ kequal_ _ key i x Hp2 Hi).
    + subst x. cbn [deleted item]. rewrite Hit. reflexivity.
    + cbn [table_]. exact (vec_get_set_eq _ _ _ _ Hg1).
  - rewrite !size_live_count. cbn [table_].
    rewrite (live_count_set_exact _ i _ x Hg1).
    subst t1. cbn [table_].
    rewrite (live_count_set_exact (table_ t) i _ _ Hg).
    subst x. cbn [live deleted negb]. rewrite Hd. cbn [negb]. lia.
Qed.

(** With a prober whose probes stay inside the table, [remove] returns. *)
Lemma remove_returns_of_probe (t : Table) key loc :
  probe t key = Ok loc ->
  (loc = npos \/ (loc <> npos /\ exists s, vec_get (table_ t) loc = Some s)) ->
  exists t', remove t key = Done t'.
Proof.
  intros Hp Hloc. unfold HashTable.remove. rewrite Hp.
  destruct Hloc as [->|(Hne & s & Hs)].
  - rewrite Z.eqb_refl. eauto.
  - destruct (Z.eqb_spec loc npos); [contradiction|]. cbn [negb]. rewrite Hs.
    destruct s as [it|]; eauto.
Qed.
End TableReinsert.

(** On a table between operations [probe] returns, with either prober. *)
Lemma probe_returns_linear {K V : Type} (hash_ : K -> Z) kequal_
      (t : @HashTable.HashTable K V) key :
  HashTable.table_inv t ->
  exists loc,
    HashTable.probe hash_ kequal_ t key = Ok loc /\
    (loc = npos \/ (loc <> npos /\ exists s, vec_get (HashTable.table_ t) loc = Some s)).
Proof.
  intros (Hi & Hlen & _).
  pose proof (capacity_at_bounds (HashTable.mIndex_ t) Hi) as Hcap.
  fold (HashTable.capacity t) in Hcap.
  apply (probe_loop_returns kequal_ (HashTable.table_ t) key
           (S (Z.to_nat (HashTable.capacity t)))
           (LinearProber.init (hash_ key mod HashTable.capacity t)
              (HashTable.capacity t) key)).
  rewrite Hlen, Z2Nat.id by lia. apply linear_bounded; [lia|lia|].
  rewrite two64_eq. lia.
Qed.

Lemma probe_returns_double {K V : Type} (h2_ hash_ : K -> Z) kequal_
      (t : @HashTable.HashTable K V) key :
  HashTable.table_inv t ->
  exists loc,
    @HashTable.probe K V _ (DoubleHashProber.ops h2_) hash_ kequal_ t key = Ok loc /\
    (loc = npos \/ (loc <> npos /\ exists s, vec_get (HashTable.table_ t) loc = Some s)).
Proof.
  intros (Hi & Hlen & _).
  pose proof (capacity_at_bounds (HashTable.mIndex_ t) Hi) as Hcap.
  fold (HashTable.capacity t) in Hcap.
  destruct (double_init_above_7 h2_ (hash_ key mod HashTable.capacity t)
              (HashTable.capacity t) key ltac:(lia)) as (modulus & Hinit & _).
  unfold HashTable.probe, HashTable.probe_from.
  cbn [prober_init DoubleHashProber.ops]. rewrite Hinit.
  apply (@probe_loop_returns K V _ (DoubleHashProber.ops h2_)).
  rewrite Hlen, Z2Nat.id by lia. apply double_bounded; [lia|lia|].
  rewrite two64_eq. lia.
Qed.

(** X23.  On a table between operations, with the linear prober and with
    the double-hash prober (any secondary hash), [find] and [remove]
    return normally for every key: no probe leaves the vector, and no
    exception is thrown. *)
Theorem find_and_remove_return {K V : Type} (hash_ : K -> Z)
        (kequal_ : K -> K -> bool) (t : @HashTable.HashTable K V) (key : K) :
  HashTable.table_inv t ->
  ((exists r, HashTable.find hash_ kequal_ t key = Ok r) /\
   (exists t', HashTable.remove hash_ kequal_ t key = HashTable.Done t')) /\
  (forall h2_ : K -> Z,
     (exists r, @HashTable.find K V _ (DoubleHashProber.ops h2_) hash_ kequal_ t key = Ok r) /\
     (exists t', @HashTable.remove K V _ (DoubleHashProber.ops h2_) hash_ kequal_ t key
                 = HashTable.Done t')).
Proof.
  intros Hinv. split.
  - destruct (probe_returns_linear hash_ kequal_ t key Hinv) as (loc & Hp & Hloc).
    split.
    + exact (find_returns_of_probe hash_ kequal_ t key loc Hp Hloc).
    + exact (remove_returns_of_probe hash_ kequal_ t key loc Hp Hloc).
  - intros h2_.
    destruct (probe_returns_double h2_ hash_ kequal_ t key Hinv) as (loc & Hp & Hloc).
    split.
    + exact (@find_returns_of_probe K V _ (DoubleHashProber.ops h2_) hash_ kequal_
               t key loc Hp Hloc).
    + exact (@remove_returns_of_probe K V _ (DoubleHashProber.ops h2_) hash_ kequal_
               t key loc Hp Hloc).
Qed.

Lemma remove_absent_is_noop_witness :
  StringTable.remove StringTable.table_ab "cat" = HashTable.Done StringTable.table_ab.
Proof.
  apply (remove_absent_is_noop MyStringHash.hash String.eqb StringTable.table_ab "cat").
  vm_compute. reflexivity.
Defined.

Lemma reinsert_after_remove_witness :
  exists t1 : StringTable.table,
    StringTable.remove StringTable.table_ab "a" = HashTable.Done t1 /\
    exists t2,
      StringTable.insert t1 ("a", 7) = HashTable.Done t2 /\
      StringTable.find t2 "a" = Ok (Some (fst ("a", 1), 7)) /\
      HashTable.size t2 = HashTable.size StringTable.table_ab /\
      HashTable.mIndex_ t2 = HashTable.mIndex_ StringTable.table_ab.
Proof.
  eexists.
  eassert (Hr : StringTable.remove StringTable.table_ab "a" = HashTable.Done _)
    by (vm_compute; reflexivity).
  split; [exact Hr|].
  apply (reinsert_after_remove MyStringHash.hash String.eqb StringTable.table_ab _
           "a" 7 ("a", 1));
    [vm_compute; reflexivity | exact Hr | vm_compute; reflexivity].
Defined.

Lemma find_and_remove_return_witness :
  ((exists r, HashTable.find MyStringHash.hash String.eqb StringTable.table_ab "cat" = Ok r) /\
   (exists t', HashTable.remove MyStringHash.hash String.eqb StringTable.table_ab "cat"
               = HashTable.Done t')) /\
  (forall h2_ : string -> Z,
     (exists r, @HashTable.find string Z _ (DoubleHashProber.ops h2_)
                  MyStringHash.hash String.eqb StringTable.table_ab "cat" = Ok r) /\
     (exists t', @HashTable.remove string Z _ (DoubleHashProber.ops h2_)
                   MyStringHash.hash String.eqb StringTable.table_ab "cat"
                 = HashTable.Done t')).
Proof.
  apply (find_and_remove_return MyStringHash.hash String.eqb StringTable.table_ab "cat").
  apply after_inv.
Defined.
